(** * CNTCL: a shallow embedding of [include/CNTCL.hpp]

    The header is modelled function by function.  Unsigned machine integers
    are integers of [Z] with their wrap-around written out ([u64], [u32]);
    [std::vector] is [list]; loops whose termination is not structural take
    a [fuel] argument and answer in [outcome]; the coroutines are explicit
    state machines over their suspension points; the thread-local cache is a
    store indexed by thread. *)

From Stdlib Require Import ZArith List Bool Lia Znumtheory Permutation Sorted Finite.
Import ListNotations.
Open Scope Z_scope.

(* ================================================================== *)
(** * Machine integers and outcomes *)
(* ================================================================== *)

Definition U64 : Z := 18446744073709551616.
Definition U32 : Z := 4294967296.

(** [uint64_t] and [uint32_t] arithmetic is arithmetic modulo 2^64, 2^32. *)
Definition u64 (x : Z) : Z := x mod U64.
Definition u32 (x : Z) : Z := x mod U32.

Definition is_u64 (x : Z) : Prop := 0 <= x < U64.
Definition is_u32 (x : Z) : Prop := 0 <= x < U32.

(** What running a piece of code with a bounded number of loop iterations
    gives: a result, no result within the bound, or undefined behaviour
    (division by zero, an index outside a vector, resuming a finished
    coroutine). *)
Inductive outcome (A : Type) : Type :=
| Ret (a : A)
| OutOfFuel
| Undefined.
Arguments Ret {A} a.
Arguments OutOfFuel {A}.
Arguments Undefined {A}.

Definition bind {A B : Type} (m : outcome A) (k : A -> outcome B) : outcome B :=
  match m with
  | Ret a => k a
  | OutOfFuel => OutOfFuel
  | Undefined => Undefined
  end.

Notation "x <- m ;; k" := (bind m (fun x => k))
  (at level 61, m at next level, right associativity).

(** A run [terminates] with [a] when every large enough bound gives [a]. *)
Definition terminates {A : Type} (run : nat -> outcome A) (a : A) : Prop :=
  exists fuel0, forall fuel, (fuel0 <= fuel)%nat -> run fuel = Ret a.

(** A run [diverges] when no bound gives any result. *)
Definition diverges {A : Type} (run : nat -> outcome A) : Prop :=
  forall fuel, run fuel = OutOfFuel.

(* ================================================================== *)
(** * [is_prime] (lines 68-83), at [T = uint64_t] *)
(* ================================================================== *)

(** The loop [for (T i = 5; i * i <= n; i += 6)].  The divisors [i] and
    [i + 2] stay odd, hence non-zero, so [%] is [Z.modulo]. *)
Fixpoint is_prime_loop (fuel : nat) (n i : Z) : option bool :=
  match fuel with
  | O => None
  | S fuel' =>
      if u64 (i * i) <=? n then
        if (n mod i =? 0) || (n mod u64 (i + 2) =? 0) then Some false
        else is_prime_loop fuel' n (u64 (i + 6))
      else Some true
  end.

Definition is_prime_fuel (fuel : nat) (n : Z) : option bool :=
  if n <=? 1 then Some false
  else if n <=? 3 then Some true
  else if (n mod 2 =? 0) || (n mod 3 =? 0) then Some false
  else is_prime_loop fuel n 5.

(** The loop leaves at the latest when [i] or [i + 2] reaches [n], so [n]
    iterations are enough ([is_prime_fuel_total] below): [is_prime] is the
    total function the callers see. *)
Definition is_prime (n : Z) : bool :=
  match is_prime_fuel (Z.to_nat n) n with
  | Some b => b
  | None => false
  end.

(* ================================================================== *)
(** * [PrimeChecker] (lines 279-307) *)
(* ================================================================== *)

Definition CACHE_SIZE : Z := 1000.

(** [std::vector<std::pair<uint64_t, bool>>], oldest entry first. *)
Definition cache : Type := list (Z * bool).

(** The range-for over [cache]: the first entry whose key is [n]. *)
Fixpoint cache_find (c : cache) (n : Z) : option bool :=
  match c with
  | [] => None
  | entry :: rest => if fst entry =? n then Some (snd entry) else cache_find rest n
  end.

(** [cache.erase(cache.begin())]. *)
Definition erase_begin (c : cache) : cache := tl c.

Section CachedWith.
(** The body of [is_prime_cached] over the primality test it calls. *)
Variable oracle : Z -> bool.

Definition is_prime_cached_with (c : cache) (n : Z) : bool * cache :=
  match cache_find c n with
  | Some stored => (stored, c)
  | None =>
      let result := oracle n in
      let c1 := if Z.of_nat (length c) >=? CACHE_SIZE then erase_begin c else c in
      (result, c1 ++ [(n, result)])
  end.
End CachedWith.

(** [static thread_local cache]: one vector per thread, all empty at first. *)
Definition thread_id : Type := nat.
Definition tls : Type := thread_id -> cache.
Definition tls_init : tls := fun _ => [].
Definition tls_set (s : tls) (t : thread_id) (c : cache) : tls :=
  fun t' => if Nat.eqb t' t then c else s t'.

(** [PrimeChecker::is_prime_cached(n)] called on thread [t]. *)
Definition is_prime_cached (t : thread_id) (n : Z) (s : tls) : bool * tls :=
  let (r, c) := is_prime_cached_with is_prime (s t) n in (r, tls_set s t c).

(** The stores a program can be in: from [tls_init] by calls of
    [is_prime_cached], from any threads. *)
Inductive reachable : tls -> Prop :=
| reachable_init : reachable tls_init
| reachable_call s t n :
    reachable s -> is_u64 n -> reachable (snd (is_prime_cached t n s)).

(** Calling [is_prime_cached] on thread [t] for each key of [ks] in turn. *)
Fixpoint query_all (t : thread_id) (ks : list Z) (s : tls) : tls :=
  match ks with
  | [] => s
  | k :: ks' => query_all t ks' (snd (is_prime_cached t k s))
  end.

Definition cache_keys (c : cache) : list Z := map fst c.


(** What every cache a program can hold satisfies: each stored answer is
    [is_prime] of its key, and there are at most [CACHE_SIZE] entries. *)
Definition cache_ok (c : cache) : Prop :=
  Forall (fun entry => snd entry = is_prime (fst entry)) c
  /\ Z.of_nat (length c) <= CACHE_SIZE.

(** The [k] most recent entries of a cache. *)
Definition most_recent (k : nat) (c : cache) : cache := skipn (length c - k) c.

(** The entry a miss on [n] appends. *)
Definition entry_of (n : Z) : Z * bool := (n, is_prime n).

(* ================================================================== *)
(** * [fibonacci_generator] and [fibonacci_sequence] (lines 175-216) *)
(* ================================================================== *)

(** Where the coroutine is suspended: before its body ([initial_suspend]
    is [suspend_always]), at the [co_yield] of the loop, or at the end
    ([final_suspend]). *)
Inductive fib_point : Type := FibInitial | FibYield | FibFinal.

(** The coroutine frame: the parameter, the locals [a], [b], [i], and the
    promise's [value], which holds nothing until the first [co_yield]. *)
Record fibonacci_generator : Type := mk_fib {
  fib_at : fib_point;
  fib_max_count : Z;
  fib_a : Z;
  fib_b : Z;
  fib_i : Z;
  fib_value : option Z
}.

(** Calling the coroutine function creates the frame and suspends. *)
Definition fibonacci_sequence (max_count : Z) : fibonacci_generator :=
  mk_fib FibInitial max_count 0 0 0 None.

(** The head of [for (...; i < max_count; ...)] followed by [co_yield a],
    or the fall off the end of the body. *)
Definition fib_loop (max_count a b i : Z) (value : option Z) : fibonacci_generator :=
  if i <? max_count then mk_fib FibYield max_count a b i (Some a)
  else mk_fib FibFinal max_count a b i value.

(** [handle.resume()]: run to the next suspension point.  Resuming a
    coroutine suspended at its final point is undefined. *)
Definition fib_resume (g : fibonacci_generator) : outcome fibonacci_generator :=
  match fib_at g with
  | FibInitial => Ret (fib_loop (fib_max_count g) 0 1 0 (fib_value g))
  | FibYield =>
      let temp := fib_a g in
      let a := fib_b g in
      let b := u64 (temp + fib_b g) in
      Ret (fib_loop (fib_max_count g) a b (u64 (fib_i g + 1)) (fib_value g))
  | FibFinal => Undefined
  end.

(** [next()]: resume, then read the promise's value ([None] when it was
    never written). *)
Definition fib_next (g : fibonacci_generator) : outcome (option Z * fibonacci_generator) :=
  g' <- fib_resume g ;; Ret (fib_value g', g').

(** [done()]. *)
Definition fib_done (g : fibonacci_generator) : bool :=
  match fib_at g with FibFinal => true | _ => false end.

(** [k] calls of [next()], with the values they returned, oldest first. *)
Fixpoint fib_take (k : nat) (g : fibonacci_generator)
  : outcome (list (option Z) * fibonacci_generator) :=
  match k with
  | O => Ret ([], g)
  | S k' =>
      r <- fib_next g ;;
      rest <- fib_take k' (snd r) ;;
      Ret (fst r :: fst rest, snd rest)
  end.

(** The values of the first [k] calls. *)
Definition fib_values (k : nat) (g : fibonacci_generator) : outcome (list (option Z)) :=
  r <- fib_take k g ;; Ret (fst r).

(** What [done()] answers after [k] calls. *)
Definition fib_done_after (k : nat) (g : fibonacci_generator) : outcome bool :=
  r <- fib_take k g ;; Ret (fib_done (snd r)).

(** The Fibonacci numbers: F(0) = 0, F(1) = 1, F(n+2) = F(n+1) + F(n). *)
Fixpoint F (n : nat) : Z :=
  match n with
  | O => 0
  | S n' => match n' with
            | O => 1
            | S n'' => F n' + F n''
            end
  end.

(** [F] by iteration on the pair (F(n), F(n+1)), to evaluate it. *)
Fixpoint F_pair (n : nat) : Z * Z :=
  match n with
  | O => (0, 1)
  | S n' => let p := F_pair n' in (snd p, fst p + snd p)
  end.

(** The frame suspended at the [co_yield] that yields F(j) mod 2^64. *)
Definition fib_yielding (max_count : Z) (j : nat) : fibonacci_generator :=
  mk_fib FibYield max_count (u64 (F j)) (u64 (F (S j))) (Z.of_nat j)
         (Some (u64 (F j))).

(** The values the first [k] calls return when the generator was asked
    for at least [k]. *)
Definition fib_expected (from k : nat) : list (option Z) :=
  map (fun j => Some (u64 (F j))) (seq from k).

(** The value the [N]-th call of [next()] returns. *)
Definition fib_nth (N : nat) (g : fibonacci_generator) : outcome (option Z) :=
  r <- fib_take N g ;; Ret (last (fst r) None).

(* ================================================================== *)
(** * [ConcurrentPrimeCounter] (lines 311-349) *)
(* ================================================================== *)

(** [uint64_t chunk_size = (end - start + 1) / thread_count;] where a zero
    [thread_count] is a division by zero. *)
Definition chunk_size (start end_ thread_count : Z) : outcome Z :=
  if thread_count =? 0 then Undefined
  else Ret (u64 (end_ - start + 1) / thread_count).

(** [uint64_t chunk_start = start + i * chunk_size;] *)
Definition chunk_start (start csize i : Z) : Z := u64 (start + u64 (i * csize)).

(** [uint64_t chunk_end = (i == thread_count - 1) ? end
                                                   : chunk_start + chunk_size - 1;] *)
Definition chunk_end (end_ thread_count csize cstart i : Z) : Z :=
  if i =? u32 (thread_count - 1) then end_ else u64 (u64 (cstart + csize) - 1).

(** A chunk is the pair of its inclusive bounds. *)
Definition chunk : Type := (Z * Z)%type.

Definition chunk_of (start end_ thread_count csize i : Z) : chunk :=
  let cstart := chunk_start start csize i in
  (cstart, chunk_end end_ thread_count csize cstart i).

(** The chunks of [for (uint32_t i = 0; i < thread_count; i++)], in the
    order the threads are created. *)
Definition chunks_with (start end_ thread_count csize : Z) : list chunk :=
  map (fun i => chunk_of start end_ thread_count csize (Z.of_nat i))
      (seq 0 (Z.to_nat thread_count)).

Definition chunks (start end_ thread_count : Z) : outcome (list chunk) :=
  csize <- chunk_size start end_ thread_count ;;
  Ret (chunks_with start end_ thread_count csize).

(** The numbers a worker given the chunk scans. *)
Definition in_chunk (n : Z) (c : chunk) : Prop := fst c <= n <= snd c.

(** The worker's [for (uint64_t n = chunk_start; n <= chunk_end; n++)]. *)
Fixpoint worker_loop (fuel : nat) (n cend local_count : Z) : outcome Z :=
  match fuel with
  | O => OutOfFuel
  | S fuel' =>
      if n <=? cend then
        worker_loop fuel' (u64 (n + 1)) cend
                    (if is_prime n then u64 (local_count + 1) else local_count)
      else Ret local_count
  end.

(** The thread body up to its [fetch_add]: the chunk's local count. *)
Definition worker (fuel : nat) (c : chunk) : outcome Z :=
  worker_loop fuel (fst c) (snd c) 0.

(** [count.fetch_add(local_count, std::memory_order_relaxed)]: the new
    value of the shared counter. *)
Definition fetch_add (count local_count : Z) : Z := u64 (count + local_count).

(** The threads, taken in the order in which they reach their
    [fetch_add]; the joins return once each of them has (a thread that
    never leaves its loop is never joined). *)
Fixpoint run_threads (fuel : nat) (cs : list chunk) (count : Z) : outcome Z :=
  match cs with
  | [] => Ret count
  | c :: rest =>
      local_count <- worker fuel c ;;
      run_threads fuel rest (fetch_add count local_count)
  end.

(** [count_primes(start, end, thread_count)]: [count = 0], the threads,
    the joins, [count.load()].  [completion] is the order in which the
    threads finish, a rearrangement of the chunks they were given. *)
Definition count_primes_in_order (completion : list chunk -> list chunk)
    (fuel : nat) (start end_ thread_count : Z) : outcome Z :=
  cs <- chunks start end_ thread_count ;;
  run_threads fuel (completion cs) 0.

(** The threads finishing in the order they were created. *)
Definition count_primes (fuel : nat) (start end_ thread_count : Z) : outcome Z :=
  count_primes_in_order (fun cs => cs) fuel start end_ thread_count.

(** How many of the [len] numbers from [a] on [is_prime] accepts. *)
Fixpoint prime_count (a : Z) (len : nat) : Z :=
  match len with
  | O => 0
  | S len' => (if is_prime a then 1 else 0) + prime_count (a + 1) len'
  end.

(** How many numbers of [start, end] [is_prime] accepts. *)
Definition primes_between (start end_ : Z) : Z :=
  prime_count start (Z.to_nat (end_ - start + 1)).

(** Chunks that follow one another from [a] up to [e] with nothing between
    and nothing twice: each starts right after the one before ends (a chunk
    [(a, a - 1)] holds no number). *)
Inductive consecutive : Z -> list chunk -> Z -> Prop :=
| consecutive_last a e : a <= e + 1 -> consecutive a [(a, e)] e
| consecutive_next a b rest e :
    a <= b + 1 -> consecutive (b + 1) rest e ->
    consecutive a ((a, b) :: rest) e.

(** The size of a chunk, as a count of numbers. *)
Definition chunk_length (c : chunk) : Z := snd c - fst c + 1.

(** Two chunks with no number in common. *)
Definition disjoint (c1 c2 : chunk) : Prop :=
  forall n, ~ (in_chunk n c1 /\ in_chunk n c2).

(** When the partition arithmetic of [count_primes] does not wrap: the
    range is not the whole of [uint64_t], and there is no chunk of size zero
    starting at zero (whose end, [0 + 0 - 1], would wrap to 2^64 - 1). *)
Definition partition_safe (start end_ thread_count : Z) : Prop :=
  0 <= start <= end_ /\ end_ - start + 1 < U64 /\ end_ < U64
  /\ 1 <= thread_count < U32
  /\ (1 <= start \/ thread_count <= end_ - start + 1).

(* ================================================================== *)
(** * [prime_generator] and [generate_primes] (lines 219-274) *)
(* ================================================================== *)

(** Where the coroutine is suspended: before its body, at [co_yield 2], at
    the [co_yield num] of the loop, or at the end. *)
Inductive gen_point : Type := GenInitial | GenFirst | GenYield | GenFinal.

(** The coroutine frame: the parameter, the locals [count] and [num], and
    the promise's [value]. *)
Record prime_generator : Type := mk_gen {
  gen_at : gen_point;
  gen_max_count : Z;
  gen_count : Z;
  gen_num : Z;
  gen_value : option Z
}.

Definition generate_primes (max_count : Z) : prime_generator :=
  mk_gen GenInitial max_count 0 0 None.

(** [for (uint64_t i = 3; i * i <= num; i += 2) if (num % i == 0) ...]:
    whether [is_prime] is still true after the loop.  [i] stays odd, hence
    non-zero. *)
Fixpoint trial_loop (fuel : nat) (num i : Z) : outcome bool :=
  match fuel with
  | O => OutOfFuel
  | S fuel' =>
      if u64 (i * i) <=? num then
        if num mod i =? 0 then Ret false
        else trial_loop fuel' num (u64 (i + 2))
      else Ret true
  end.

(** [while (count < max_count)] from its head up to the next [co_yield num]
    or the end of the body. *)
Fixpoint scan (fuel : nat) (max_count count num : Z) (value : option Z)
  : outcome prime_generator :=
  match fuel with
  | O => OutOfFuel
  | S fuel' =>
      if count <? max_count then
        is_prime <- trial_loop fuel' num 3 ;;
        if (is_prime : bool) then Ret (mk_gen GenYield max_count count num (Some num))
        else scan fuel' max_count count (u64 (num + 2)) value
      else Ret (mk_gen GenFinal max_count count num value)
  end.

(** [handle.resume()]. *)
Definition gen_resume (fuel : nat) (g : prime_generator) : outcome prime_generator :=
  match gen_at g with
  | GenInitial =>
      Ret (mk_gen GenFirst (gen_max_count g) (gen_count g) (gen_num g) (Some 2))
  | GenFirst => scan fuel (gen_max_count g) 1 3 (gen_value g)
  | GenYield =>
      scan fuel (gen_max_count g) (u64 (gen_count g + 1)) (u64 (gen_num g + 2))
           (gen_value g)
  | GenFinal => Undefined
  end.

(** [next()]. *)
Definition gen_next (fuel : nat) (g : prime_generator)
  : outcome (option Z * prime_generator) :=
  g' <- gen_resume fuel g ;; Ret (gen_value g', g').

(** [done()]. *)
Definition gen_done (g : prime_generator) : bool :=
  match gen_at g with GenFinal => true | _ => false end.

(** [k] calls of [next()], with the values they returned, oldest first. *)
Fixpoint gen_take (fuel k : nat) (g : prime_generator)
  : outcome (list (option Z) * prime_generator) :=
  match k with
  | O => Ret ([], g)
  | S k' =>
      r <- gen_next fuel g ;;
      rest <- gen_take fuel k' (snd r) ;;
      Ret (fst r :: fst rest, snd rest)
  end.

Definition gen_values (fuel k : nat) (g : prime_generator)
  : outcome (list (option Z)) :=
  r <- gen_take fuel k g ;; Ret (fst r).

(** The primes that follow [p], in order and without a gap. *)
Inductive primes_after : Z -> list Z -> Prop :=
| primes_after_nil p : primes_after p []
| primes_after_cons p q l :
    p < q -> prime q -> (forall x, p < x < q -> ~ prime x) ->
    primes_after q l -> primes_after p (q :: l).

(** The first primes, in ascending order: 2, then the primes after it. *)
Definition first_primes (l : list Z) : Prop :=
  exists l', l = 2 :: l' /\ primes_after 2 l'.

(** Below this bound the square [i * i] of the trial loops does not wrap
    for any divisor the loop reaches: (2^32 - 1)^2. *)
Definition SQUARE_SAFE : Z := 18446744065119617025.

(** An odd divisor, below [SQUARE_SAFE], whose wrapped square is
    2^64 - 7, above every prime of 64 bits: the trial loop on a prime
    of at least [SQUARE_SAFE], where the squares wrap, ends there at the
    latest. *)
Definition WRAP_EXIT : Z := 1852311383259529397.

(** The frame suspended at the [co_yield num] that yields [p], the loop's
    [count] being [c]. *)
Definition gen_yielding (max_count c p : Z) : prime_generator :=
  mk_gen GenYield max_count c p (Some p).

(** The fuel that the calls yielding the primes of [l] need. *)
Fixpoint scan_fuel (l : list Z) : nat :=
  match l with
  | [] => 0
  | p :: l' => Nat.max (Z.to_nat (2 * p + 2)) (scan_fuel l')
  end.

(** Trial division from 3 as a test of the odd number [x], with the fuel
    it needs. *)
Definition odd_prime_b (x : Z) : bool :=
  match trial_loop (S (Z.to_nat x)) x 3 with
  | Ret true => true
  | _ => false
  end.

(** A test of [x > 2] for not being prime: even, or refused by the trial
    division. *)
Definition composite_b (x : Z) : bool :=
  if x mod 2 =? 0 then true
  else match trial_loop (S (Z.to_nat x)) x 3 with
       | Ret false => true
       | _ => false
       end.

(** The [n] integers from [a] on. *)
Definition Zrange (a : Z) (n : nat) : list Z :=
  map (fun i => a + Z.of_nat i) (seq 0 n).

(** A test that [l] lists the primes after [p], by trial division. *)
Fixpoint primes_after_b (p : Z) (l : list Z) : bool :=
  match l with
  | [] => true
  | q :: l' =>
      (p <? q) && (q mod 2 =? 1) && odd_prime_b q
      && forallb composite_b (Zrange (p + 1) (Z.to_nat (q - p - 1)))
      && primes_after_b q l'
  end.


(* ================================================================== *)
(** * [simd_sieve] (lines 144-170) *)
(* ================================================================== *)

(** [is_composite[k]] read: an index outside the vector is undefined. *)
Definition vec_get (v : list bool) (k : Z) : outcome bool :=
  if (0 <=? k) && (k <? Z.of_nat (length v)) then Ret (nth (Z.to_nat k) v false)
  else Undefined.

(** [is_composite[k] = b]. *)
Definition vec_set (v : list bool) (k : Z) (b : bool) : outcome (list bool) :=
  if (0 <=? k) && (k <? Z.of_nat (length v))
  then Ret (firstn (Z.to_nat k) v ++ b :: skipn (S (Z.to_nat k)) v)
  else Undefined.

(** [for (uint32_t j = i * i; j <= limit; j += 2 * i)
         is_composite[(j - 1) / 2] = true;] from its head, at [j]. *)
Fixpoint mark_loop (fuel : nat) (limit i j : Z) (is_composite : list bool)
  : outcome (list bool) :=
  match fuel with
  | O => OutOfFuel
  | S fuel' =>
      if j <=? limit then
        v <- vec_set is_composite (u32 (j - 1) / 2) true ;;
        mark_loop fuel' limit i (u32 (j + u32 (2 * i))) v
      else Ret is_composite
  end.

(** [for (uint32_t i = 3; i * i <= limit; i += 2)] from its head, at [i]. *)
Fixpoint sieve_loop (fuel : nat) (limit i : Z) (is_composite : list bool)
  : outcome (list bool) :=
  match fuel with
  | O => OutOfFuel
  | S fuel' =>
      if u32 (i * i) <=? limit then
        c <- vec_get is_composite (u32 (i - 1) / 2) ;;
        v <- (if negb c then mark_loop fuel' limit i (u32 (i * i)) is_composite
              else Ret is_composite) ;;
        sieve_loop fuel' limit (u32 (i + 2)) v
      else Ret is_composite
  end.

(** [for (uint32_t i = 3; i <= limit; i += 2)] from its head, at [i]. *)
Fixpoint collect_loop (fuel : nat) (limit i : Z) (is_composite : list bool)
    (primes : list Z) : outcome (list Z) :=
  match fuel with
  | O => OutOfFuel
  | S fuel' =>
      if i <=? limit then
        c <- vec_get is_composite (u32 (i - 1) / 2) ;;
        collect_loop fuel' limit (u32 (i + 2)) is_composite
                     (if negb c then primes ++ [i] else primes)
      else Ret primes
  end.

(** [simd_sieve(limit)].  [limit + 1] is computed in 32 bits, then widened
    to [size_t]. *)
Definition simd_sieve (fuel : nat) (limit : Z) : outcome (list Z) :=
  if limit <? 2 then Ret []
  else
    let size := u32 (limit + 1) / 2 in
    let is_composite := repeat false (Z.to_nat size) in
    v <- sieve_loop fuel limit 3 is_composite ;;
    collect_loop fuel limit 3 v [2].

(** Below this bound no 32-bit square or sum of the sieve wraps: 65535^2. *)
Definition SIEVE_SAFE : Z := 4294836225.

(** The entry of [is_composite] for the odd number [x]. *)
Definition is_marked (is_composite : list bool) (x : Z) : bool :=
  nth (Z.to_nat ((x - 1) / 2)) is_composite false.

(** [x] has an odd divisor from 3 on, below [i], whose square does not
    exceed [x]. *)
Definition small_divisor (i x : Z) : Prop :=
  exists d, 3 <= d < i /\ d mod 2 = 1 /\ (d | x) /\ d * d <= x.

(** What [is_composite] holds when the sieve loop is at its head with [i]:
    the odd numbers up to [limit] with a [small_divisor] below [i]. *)
Definition sieve_inv (limit i : Z) (v : list bool) : Prop :=
  Z.of_nat (length v) = (limit + 1) / 2
  /\ forall x, 1 <= x <= limit -> x mod 2 = 1 ->
       (is_marked v x = true <-> small_divisor i x).

(** What [is_composite] holds when the marking loop of [i] is at its head
    with [j]: in addition, the odd multiples of [i] from [i * i] on that
    are below [j]. *)
Definition mark_inv (limit i j : Z) (v : list bool) : Prop :=
  Z.of_nat (length v) = (limit + 1) / 2
  /\ forall x, 1 <= x <= limit -> x mod 2 = 1 ->
       (is_marked v x = true
        <-> small_divisor i x \/ ((i | x) /\ i * i <= x /\ x < j)).

(** What [primes] holds when the collecting loop is at its head with [i]:
    the primes below [i], in ascending order. *)
Definition collect_inv (i : Z) (primes : list Z) : Prop :=
  StronglySorted Z.lt primes /\ forall x, In x primes <-> (prime x /\ x < i).

(* ================================================================== *)
(** * [prime_factors] (lines 107-141), at [T = uint64_t] *)
(* ================================================================== *)

(** [while (n % 2 == 0) { factors.push_back(2); n /= 2; }], for [n <> 0].
    The vector is a list without a capacity, which describes [push_back]
    as long as the allocation succeeds: for [n <> 0] the loop pushes at
    most 63 times.  For [n = 0] the loop of the source pushes until the
    allocation fails and the call ends with [std::bad_alloc]; the
    [OutOfFuel] of this function there does not describe that, and nothing
    below is stated about [n = 0]. *)
Fixpoint halve_loop (fuel : nat) (n : Z) (factors : list Z)
  : outcome (Z * list Z) :=
  match fuel with
  | O => OutOfFuel
  | S fuel' =>
      if n mod 2 =? 0 then halve_loop fuel' (n / 2) (factors ++ [2])
      else Ret (n, factors)
  end.

(** [do { desired = expected / i; }
    while (!current_n.compare_exchange_weak(expected, desired));]
    on an atomic that is a local of the call: no other thread writes it, a
    failed exchange is a spurious one that reloads the same [expected], and
    the loop leaves with [current_n] divided by [i]. *)
Definition compare_exchange_loop (current_n i : Z) : Z :=
  let expected := current_n in
  let desired := expected / i in
  desired.

(** [while (current_n.load() % i == 0) { factors.push_back(i); ... }] *)
Fixpoint divide_loop (fuel : nat) (i current_n : Z) (factors : list Z)
  : outcome (Z * list Z) :=
  match fuel with
  | O => OutOfFuel
  | S fuel' =>
      if current_n mod i =? 0 then
        divide_loop fuel' i (compare_exchange_loop current_n i) (factors ++ [i])
      else Ret (current_n, factors)
  end.

(** [for (T i = 3; i * i <= current_n.load(); i += 2)] from its head, at
    [i].  [i] stays odd, hence non-zero. *)
Fixpoint odd_loop (fuel : nat) (i current_n : Z) (factors : list Z)
  : outcome (Z * list Z) :=
  match fuel with
  | O => OutOfFuel
  | S fuel' =>
      if u64 (i * i) <=? current_n then
        r <- divide_loop fuel' i current_n factors ;;
        odd_loop fuel' (u64 (i + 2)) (fst r) (snd r)
      else Ret (current_n, factors)
  end.

(** [prime_factors(n)]. *)
Definition prime_factors (fuel : nat) (n : Z) : outcome (list Z) :=
  r <- halve_loop fuel n [] ;;
  r' <- odd_loop fuel 3 (fst r) (snd r) ;;
  let current_n := fst r' in
  let factors := snd r' in
  Ret (if current_n >? 2 then factors ++ [current_n] else factors).

(** The product of a list of factors. *)
Definition product (l : list Z) : Z := fold_right Z.mul 1 l.

(** The largest divisor whose square fits 64 bits: 2^32 - 1. *)
Definition ROOT_MAX : Z := 4294967295.

(** No number strictly between 1 and [i] divides [n]. *)
Definition no_divisor_below (i n : Z) : Prop :=
  forall d, 1 < d < i -> ~ (d | n).

(** What the loop over the odd divisors leaves of [cn] and appends to the
    factors when it is entered at [i]. *)
Definition odd_loop_post (i cn : Z) (left : Z) (found : list Z) : Prop :=
  product found * left = cn
  /\ Forall prime found
  /\ StronglySorted Z.le found
  /\ Forall (fun x => i <= x) found
  /\ left mod 2 = 1
  /\ (left = 1 \/ (prime left /\ i <= left /\ Forall (fun x => x <= left) found)).

(** The states in which the loop over the odd divisors can be at its head:
    [i] small enough for [i * i] not to wrap; or past that, what is left
    being a prime at least [ROOT_MAX]^2 that [i] has not passed; or, that
    prime divided out, 1 being left and the wrapped square being above
    it. *)
Definition odd_loop_state (i cn : Z) : Prop :=
  3 <= i < U64 /\ i mod 2 = 1 /\ 1 <= cn < U64 /\ cn mod 2 = 1
  /\ no_divisor_below i cn
  /\ (i <= ROOT_MAX
      \/ (prime cn /\ ROOT_MAX * ROOT_MAX <= cn /\ i <= cn)
      \/ (cn = 1 /\ 1 < u64 (i * i))).

(* ================================================================== *)
(** * [gcd], [lcm], [modpow] (lines 29-65), at [T = uint64_t] *)
(* ================================================================== *)

(** [while (b != 0) { T temp = b; b = a % b; a = temp; } return a;] *)
Fixpoint gcd (fuel : nat) (a b : Z) : outcome Z :=
  match fuel with
  | O => OutOfFuel
  | S fuel' =>
      if negb (b =? 0) then
        let temp := b in
        gcd fuel' temp (a mod b)
      else Ret a
  end.

(** [return (a / gcd(a, b)) * b;] where a zero [gcd] is a division by
    zero. *)
Definition lcm (fuel : nat) (a b : Z) : outcome Z :=
  g <- gcd fuel a b ;;
  if g =? 0 then Undefined else Ret (u64 ((a / g) * b)).

(** The loop [while (exp > 0)] of [modpow]. *)
Fixpoint modpow_loop (fuel : nat) (result base exp modulus : Z) : outcome Z :=
  match fuel with
  | O => OutOfFuel
  | S fuel' =>
      if exp >? 0 then
        let result' :=
          if negb (Z.land exp 1 =? 0) then u64 (result * base) mod modulus
          else result in
        modpow_loop fuel' result' (u64 (base * base) mod modulus)
                    (Z.shiftr exp 1) modulus
      else Ret result
  end.

(** [modpow(base, exp, modulus)]; [base % modulus] with a zero [modulus]
    is a division by zero. *)
Definition modpow (fuel : nat) (base exp modulus : Z) : outcome Z :=
  if modulus =? 1 then Ret 0
  else if modulus =? 0 then Undefined
  else modpow_loop fuel 1 (base mod modulus) exp modulus.

(** Below this bound the square [i * i] of [is_prime] does not wrap for
    any [i = 5, 11, 17, ...] its loop reaches: (2^32 - 5)^2, the square of
    the largest such [i] below 2^32. *)
Definition WHEEL_SAFE : Z := 18446744030759878681.

(* ================================================================== *)
(** * [extended_gcd], [mod_inverse] (lines 86-102), at [T = int] *)
(* ================================================================== *)

(** The coefficients can be negative: the two functions are modelled at
    the signed type the test suite calls them with, [int] of 32 bits, where
    a result outside the type is undefined behaviour. *)
Definition INT_MAX : Z := 2147483647.
Definition INT_MIN : Z := -2147483648.

Definition as_int (x : Z) : outcome Z :=
  if (INT_MIN <=? x) && (x <=? INT_MAX) then Ret x else Undefined.

(** [b / a] and [b % a] on [int]: truncated division, undefined for a zero
    divisor and for a quotient outside the type. *)
Definition int_div (b a : Z) : outcome Z :=
  if a =? 0 then Undefined else as_int (Z.quot b a).

Definition int_rem (b a : Z) : outcome Z :=
  _ <- int_div b a ;; Ret (Z.rem b a).

Definition int_mul (x y : Z) : outcome Z := as_int (x * y).
Definition int_add (x y : Z) : outcome Z := as_int (x + y).
Definition int_sub (x y : Z) : outcome Z := as_int (x - y).

(** [extended_gcd(a, b)]; [fuel] bounds the depth of the recursion. *)
Fixpoint extended_gcd (fuel : nat) (a b : Z) : outcome (Z * Z) :=
  match fuel with
  | O => OutOfFuel
  | S fuel' =>
      if a =? 0 then Ret (0, 1)
      else
        r <- int_rem b a ;;
        xy <- extended_gcd fuel' r a ;;
        let x := fst xy in
        let y := snd xy in
        q <- int_div b a ;;
        p <- int_mul q x ;;
        d <- int_sub y p ;;
        Ret (d, x)
  end.

(** [mod_inverse(a, m)]: [(x % m + m) % m] for the first coefficient. *)
Definition mod_inverse (fuel : nat) (a m : Z) : outcome Z :=
  xy <- extended_gcd fuel a m ;;
  let x := fst xy in
  r <- int_rem x m ;;
  s <- int_add r m ;;
  int_rem s m.

(** What [extended_gcd(a, b)] returns for non-negative [a] and [b]. *)
Definition bezout_pair (a b x y : Z) : Prop :=
  x * a + y * b = Z.gcd a b
  /\ Z.abs x <= Z.max 1 b /\ Z.abs y <= Z.max 1 a
  /\ (a = 0 -> x = 0 /\ y = 1).

(* ================================================================== *)
(** * Properties *)
(* ================================================================== *)

Example is_prime_997 : is_prime 997 = true.
Proof. reflexivity. Qed.

Example is_prime_999 : is_prime 999 = false.
Proof. reflexivity. Qed.

(* ------------------------------------------------------------------ *)
(** ** Wrap-around arithmetic *)

Lemma u64_small x : 0 <= x < U64 -> u64 x = x.
Proof. intros H. unfold u64. now apply Z.mod_small. Qed.

Lemma u64_range x : is_u64 (u64 x).
Proof. unfold is_u64, u64. apply Z.mod_pos_bound. reflexivity. Qed.

Lemma u32_small x : 0 <= x < U32 -> u32 x = x.
Proof. intros H. unfold u32. now apply Z.mod_small. Qed.

(* ------------------------------------------------------------------ *)
(** ** [is_prime] terminates *)

Lemma is_prime_loop_total fuel : forall n i,
  n < U64 -> n mod 2 <> 0 -> n mod 3 <> 0 ->
  5 <= i <= n -> i mod 6 = 5 -> n - i < 6 * Z.of_nat fuel ->
  exists b, is_prime_loop fuel n i = Some b.
Proof.
  induction fuel as [|fuel IH]; intros n i Hn H2 H3 Hi Hi6 Hfuel.
  - lia.
  - cbn [is_prime_loop].
    destruct (u64 (i * i) <=? n); [|now exists true].
    destruct ((n mod i =? 0) || (n mod u64 (i + 2) =? 0)) eqn:Hdiv;
      [now exists false|].
    apply orb_false_iff in Hdiv as [Hd1 Hd2].
    apply Z.eqb_neq in Hd1, Hd2.
    assert (Hne : i <> n) by (intros ->; apply Hd1, Z_mod_same_full).
    assert (Hne2 : i + 2 <> n).
    { intros E. rewrite u64_small in Hd2 by (unfold U64 in *; lia).
      rewrite E in Hd2. apply Hd2, Z_mod_same_full. }
    assert (Hstep : i + 6 <= n) by (Z.div_mod_to_equations; lia).
    rewrite u64_small by (unfold U64 in *; lia).
    apply IH; try assumption; try lia.
    rewrite <- Zplus_mod_idemp_l, Hi6. reflexivity.
Qed.

Lemma is_prime_fuel_total n :
  is_u64 n -> exists b, is_prime_fuel (Z.to_nat n) n = Some b.
Proof.
  intros [H0 Hn]. unfold is_prime_fuel.
  destruct (n <=? 1); [now exists false|].
  destruct (n <=? 3) eqn:E3; [now exists true|].
  destruct ((n mod 2 =? 0) || (n mod 3 =? 0)) eqn:Hdiv; [now exists false|].
  apply orb_false_iff in Hdiv as [Hd2 Hd3].
  apply Z.eqb_neq in Hd2, Hd3. apply Z.leb_gt in E3.
  apply is_prime_loop_total; try assumption; try reflexivity.
  - Z.div_mod_to_equations; lia.
  - rewrite Z2Nat.id by lia. lia.
Qed.

(** More fuel never changes an answer already given. *)
Lemma is_prime_loop_mono fuel : forall fuel' n i b,
  (fuel <= fuel')%nat -> is_prime_loop fuel n i = Some b ->
  is_prime_loop fuel' n i = Some b.
Proof.
  induction fuel as [|fuel IH]; intros fuel' n i b Hle H; [discriminate|].
  destruct fuel' as [|fuel']; [lia|].
  cbn [is_prime_loop] in *.
  destruct (u64 (i * i) <=? n); [|assumption].
  destruct ((n mod i =? 0) || (n mod u64 (i + 2) =? 0)); [assumption|].
  apply IH; [lia|assumption].
Qed.

(** [is_prime] is the answer of the loop, whatever bound found it. *)
Lemma is_prime_fuel_sound fuel n b :
  is_u64 n -> is_prime_fuel fuel n = Some b -> is_prime n = b.
Proof.
  intros Hn H. unfold is_prime.
  destruct (is_prime_fuel_total n Hn) as [b' Hb']. rewrite Hb'.
  unfold is_prime_fuel in *.
  destruct (n <=? 1); [congruence|].
  destruct (n <=? 3); [congruence|].
  destruct ((n mod 2 =? 0) || (n mod 3 =? 0)); [congruence|].
  destruct (Nat.le_ge_cases fuel (Z.to_nat n)) as [Hle|Hle].
  - apply (is_prime_loop_mono _ _ _ _ _ Hle) in H. congruence.
  - apply (is_prime_loop_mono _ _ _ _ _ Hle) in Hb'. congruence.
Qed.

(* ------------------------------------------------------------------ *)
(** ** Divisors of odd numbers *)

Lemma square_lt_cancel a b : 0 <= b -> a * a < b * b -> a < b.
Proof. intros Hb H. nia. Qed.

Lemma square_le_mono a b : 0 <= a <= b -> a * a <= b * b.
Proof. intros H. nia. Qed.

Lemma odd_mul_inv a b : (a * b) mod 2 = 1 -> a mod 2 = 1 /\ b mod 2 = 1.
Proof.
  intros H. rewrite Zmult_mod in H.
  pose proof (Z.mod_pos_bound a 2 eq_refl).
  pose proof (Z.mod_pos_bound b 2 eq_refl).
  assert (Ha : a mod 2 = 0 \/ a mod 2 = 1) by lia.
  assert (Hb : b mod 2 = 0 \/ b mod 2 = 1) by lia.
  destruct Ha as [Ha|Ha], Hb as [Hb|Hb]; rewrite Ha, Hb in H; cbn in H;
    (discriminate || now split).
Qed.

Lemma odd_plus_2 a : a mod 2 = 1 -> (a + 2) mod 2 = 1.
Proof. intros H. rewrite <- Zplus_mod_idemp_l, H. reflexivity. Qed.

Lemma odd_lt_step a b : a mod 2 = 1 -> b mod 2 = 1 -> a < b -> a + 2 <= b.
Proof. intros Ha Hb Hlt. Z.div_mod_to_equations. lia. Qed.

Lemma prime_odd p : prime p -> 3 <= p -> p mod 2 = 1.
Proof.
  intros Hp H3. apply prime_alt in Hp as [_ Hp].
  destruct (Z.eq_dec (p mod 2) 0) as [E|E].
  - exfalso. apply (Hp 2); [lia|]. apply Z.mod_divide; lia.
  - pose proof (Z.mod_pos_bound p 2 eq_refl). lia.
Qed.

(** An odd number larger than 1 that is not prime has an odd divisor, at
    least 3, whose square does not exceed it. *)
Lemma odd_composite_divisor n :
  1 < n -> n mod 2 = 1 -> ~ prime n ->
  exists d, 3 <= d /\ d mod 2 = 1 /\ d * d <= n /\ (d | n).
Proof.
  intros H1 Hodd Hnp.
  destruct (not_prime_divide n H1 Hnp) as (d & Hd & m & Hm).
  assert (Hparity : m mod 2 = 1 /\ d mod 2 = 1) by (apply odd_mul_inv; now rewrite <- Hm).
  destruct Hparity as [Hmo Hdo].
  assert (Hm1 : 1 < m) by nia.
  assert (Hd3 : 3 <= d) by (Z.div_mod_to_equations; lia).
  assert (Hm3 : 3 <= m) by (Z.div_mod_to_equations; lia).
  destruct (Z_le_gt_dec d m).
  - exists d. repeat split; try assumption; [nia|now exists m].
  - exists m. repeat split; try assumption; [nia|].
    exists d. lia.
Qed.

Lemma divide_mod_zero d n : 0 < d -> (d | n) <-> n mod d = 0.
Proof. intros Hd. symmetry. apply Z.mod_divide. lia. Qed.

Lemma last_cons_default {A} (l : list A) : forall a d, last (a :: l) d = last l a.
Proof.
  induction l as [|b l IH]; intros a d; [reflexivity|].
  change (last (a :: b :: l) d) with (last (b :: l) d).
  now rewrite !IH.
Qed.

Lemma prime_two : prime 2.
Proof. apply prime_alt. exact Z.prime_2. Qed.


(** *** The largest odd numbers of 64 bits *)

Lemma U64_minus_1_composite : ~ prime (U64 - 1).
Proof.
  intros Hp. apply prime_alt in Hp as [_ Hp].
  apply (Hp 3); [unfold U64; lia|]. exists 6148914691236517205. reflexivity.
Qed.

Lemma U64_minus_3_composite : ~ prime (U64 - 3).
Proof.
  intros Hp. apply prime_alt in Hp as [_ Hp].
  apply (Hp 13); [unfold U64; lia|]. exists 1418980313362273201. reflexivity.
Qed.

Lemma U64_minus_5_composite : ~ prime (U64 - 5).
Proof.
  intros Hp. apply prime_alt in Hp as [_ Hp].
  apply (Hp 11); [unfold U64; lia|]. exists 1676976733973595601. reflexivity.
Qed.

Lemma U64_minus_7_composite : ~ prime (U64 - 7).
Proof.
  intros Hp. apply prime_alt in Hp as [_ Hp].
  apply (Hp 3); [unfold U64; lia|]. exists 6148914691236517203. reflexivity.
Qed.

(** A prime of 64 bits is below 2^64 - 7. *)
Lemma prime_below_U64 p : prime p -> p < U64 -> p < U64 - 7.
Proof.
  intros Hp Hlt.
  assert (HU : U64 = 18446744073709551616) by reflexivity.
  destruct (Z_lt_ge_dec p 3) as [|H3]; [lia|].
  assert (Hodd : p mod 2 = 1) by (apply prime_odd; [assumption|lia]).
  assert (H1 : p <> U64 - 1) by (intros ->; now apply U64_minus_1_composite).
  assert (H3' : p <> U64 - 3) by (intros ->; now apply U64_minus_3_composite).
  assert (H5 : p <> U64 - 5) by (intros ->; now apply U64_minus_5_composite).
  assert (H7 : p <> U64 - 7) by (intros ->; now apply U64_minus_7_composite).
  Z.div_mod_to_equations. lia.
Qed.

(* ------------------------------------------------------------------ *)
(** ** The thread-local cache *)

Lemma cache_find_some c n v :
  cache_find c n = Some v -> In (n, v) c.
Proof.
  induction c as [|[k w] c IH]; cbn; [discriminate|].
  destruct (k =? n) eqn:E.
  - apply Z.eqb_eq in E. intros [= <-]. left. now subst.
  - intros H. right. now apply IH.
Qed.

Lemma cache_find_none c n :
  cache_find c n = None <-> ~ In n (cache_keys c).
Proof.
  induction c as [|[k w] c IH]; cbn; [tauto|].
  destruct (k =? n) eqn:E.
  - apply Z.eqb_eq in E. split; [discriminate|]. intros H. exfalso. auto.
  - apply Z.eqb_neq in E. rewrite IH. tauto.
Qed.

Lemma cache_find_in c n :
  In n (cache_keys c) -> exists v, cache_find c n = Some v.
Proof.
  intros H. destruct (cache_find c n) eqn:E; [eauto|].
  now apply cache_find_none in E.
Qed.

Lemma tls_set_same s t c : tls_set s t c t = c.
Proof. unfold tls_set. now rewrite Nat.eqb_refl. Qed.

Lemma tls_set_other s t c t' : t' <> t -> tls_set s t c t' = s t'.
Proof. intros H. unfold tls_set. apply Nat.eqb_neq in H. now rewrite H. Qed.

Lemma is_prime_cached_fst t n s :
  fst (is_prime_cached t n s) = fst (is_prime_cached_with is_prime (s t) n).
Proof. unfold is_prime_cached. now destruct (is_prime_cached_with _ _ _). Qed.

Lemma is_prime_cached_snd_same t n s :
  snd (is_prime_cached t n s) t = snd (is_prime_cached_with is_prime (s t) n).
Proof.
  unfold is_prime_cached. destruct (is_prime_cached_with _ _ _).
  apply tls_set_same.
Qed.

(** A call on thread [t] leaves the cache of every other thread alone. *)
Lemma is_prime_cached_snd_other t n s t' :
  t' <> t -> snd (is_prime_cached t n s) t' = s t'.
Proof.
  intros H. unfold is_prime_cached. destruct (is_prime_cached_with _ _ _).
  now apply tls_set_other.
Qed.

Lemma Forall_tl {A} (P : A -> Prop) l : Forall P l -> Forall P (tl l).
Proof. intros H. destruct H; [constructor|assumption]. Qed.

Lemma cached_with_keeps_ok c n :
  cache_ok c -> cache_ok (snd (is_prime_cached_with is_prime c n)).
Proof.
  unfold cache_ok, CACHE_SIZE.
  intros [Hval Hlen]. unfold is_prime_cached_with.
  destruct (cache_find c n); [now split|]. cbn [snd].
  unfold CACHE_SIZE, erase_begin in *.
  rewrite Z.geb_leb.
  destruct (Z.leb_spec 1000 (Z.of_nat (length c))); split.
  - apply Forall_app. split; [now apply Forall_tl|]. now repeat constructor.
  - rewrite length_app. destruct c; cbn [tl length] in *; lia.
  - apply Forall_app. split; [assumption|]. now repeat constructor.
  - rewrite length_app. cbn [length]. lia.
Qed.

Lemma reachable_cache_ok s : reachable s -> forall t, cache_ok (s t).
Proof.
  induction 1 as [|s t n Hs IH Hn]; intros t'.
  - split; [constructor|]. cbn. unfold CACHE_SIZE. lia.
  - destruct (Nat.eq_dec t' t) as [->|Hne].
    + rewrite is_prime_cached_snd_same. now apply cached_with_keeps_ok.
    + rewrite is_prime_cached_snd_other by assumption. apply IH.
Qed.

(** C3. In every store reachable by calls of [is_prime_cached], a call
    [is_prime_cached(n)] on any thread returns exactly [is_prime(n)]; and
    when [n] is found in the thread's cache, the stored value is what is
    returned, whatever the primality test would have computed, and the cache
    is left as it was. *)
Theorem is_prime_cached_agrees s t n :
  reachable s ->
  fst (is_prime_cached t n s) = is_prime n
  /\ (forall stored, cache_find (s t) n = Some stored ->
      forall oracle, is_prime_cached_with oracle (s t) n = (stored, s t)).
Proof.
  intros Hs. split.
  - rewrite is_prime_cached_fst. unfold is_prime_cached_with.
    destruct (cache_find (s t) n) as [v|] eqn:E; [|reflexivity].
    cbn [fst]. apply cache_find_some in E.
    destruct (reachable_cache_ok s Hs t) as [Hval _].
    rewrite Forall_forall in Hval. exact (Hval _ E).
  - intros stored E oracle. unfold is_prime_cached_with. now rewrite E.
Qed.

Lemma is_prime_cached_agrees_witness :
  let s := snd (is_prime_cached 0%nat 7 (snd (is_prime_cached 0%nat 9 tls_init))) in
  fst (is_prime_cached 0%nat 9 s) = is_prime 9
  /\ (forall stored, cache_find (s 0%nat) 9 = Some stored ->
      forall oracle, is_prime_cached_with oracle (s 0%nat) 9 = (stored, s 0%nat)).
Proof.
  intros s. apply (is_prime_cached_agrees s 0%nat 9).
  unfold s. repeat (apply reachable_call || apply reachable_init);
    unfold is_u64, U64; lia.
Defined.

(* ------------------------------------------------------------------ *)
(** ** Eviction order *)

Lemma cached_with_miss c n :
  cache_find c n = None ->
  snd (is_prime_cached_with is_prime c n)
  = (if Z.of_nat (length c) >=? CACHE_SIZE then erase_begin c else c)
      ++ [entry_of n].
Proof. intros E. unfold is_prime_cached_with. now rewrite E. Qed.

Lemma cached_with_hit c n v :
  cache_find c n = Some v -> snd (is_prime_cached_with is_prime c n) = c.
Proof. intros E. unfold is_prime_cached_with. now rewrite E. Qed.

Lemma cache_keys_miss c n k :
  cache_find c n = None ->
  In k (cache_keys (snd (is_prime_cached_with is_prime c n))) ->
  In k (cache_keys c) \/ k = n.
Proof.
  intros E. rewrite (cached_with_miss _ _ E). unfold cache_keys, erase_begin.
  rewrite map_app, in_app_iff. cbn. intros [H|[H|[]]]; [left|now right].
  destruct (Z.of_nat (length c) >=? CACHE_SIZE); [|assumption].
  destruct c; [assumption|now right].
Qed.

(** A run of misses keeps the most recent [CACHE_SIZE] entries, in the
    order they came. *)
Lemma query_all_misses t ks : forall s,
  cache_ok (s t) -> NoDup ks ->
  (forall k, In k ks -> cache_find (s t) k = None) ->
  query_all t ks s t
  = most_recent (Z.to_nat CACHE_SIZE) (s t ++ map entry_of ks).
Proof.
  unfold most_recent.
  induction ks as [|k ks IH]; intros s Hok Hnd Hmiss.
  - cbn [query_all map]. rewrite app_nil_r. destruct Hok as [_ Hlen].
    replace (length (s t) - Z.to_nat CACHE_SIZE)%nat with 0%nat by lia.
    reflexivity.
  - cbn [query_all map]. inversion Hnd as [|? ? Hk Hnd']; subst.
    assert (Ek : cache_find (s t) k = None) by (apply Hmiss; now left).
    rewrite IH; try assumption.
    + rewrite is_prime_cached_snd_same, (cached_with_miss _ _ Ek).
      destruct Hok as [_ Hlen]. rewrite Z.geb_leb.
      destruct (Z.leb_spec CACHE_SIZE (Z.of_nat (length (s t)))) as [Hfull|Hroom].
      * destruct (s t) as [|oldest c]; [unfold CACHE_SIZE in Hfull; cbn in Hfull; lia|].
        cbn [erase_begin tl]. rewrite <- app_assoc. cbn [app].
        cbn [length] in *. rewrite !length_app in *. cbn [length].
        replace (S (length c + S (length (map entry_of ks))) - Z.to_nat CACHE_SIZE)%nat
          with (S (length c + S (length (map entry_of ks)) - Z.to_nat CACHE_SIZE))
          by (unfold CACHE_SIZE in *; lia).
        reflexivity.
      * rewrite <- app_assoc. reflexivity.
    + rewrite is_prime_cached_snd_same. now apply cached_with_keeps_ok.
    + intros k' Hk'. rewrite is_prime_cached_snd_same.
      apply cache_find_none. intros Hin.
      apply (cache_keys_miss _ _ _ Ek) in Hin as [Hin| ->]; [|contradiction].
      revert Hin. apply cache_find_none. apply Hmiss. now right.
Qed.

Lemma cache_find_entries ks k :
  In k ks -> cache_find (map entry_of ks) k = Some (is_prime k).
Proof.
  induction ks as [|a ks IH]; [intros []|]. cbn.
  destruct (a =? k) eqn:E.
  - apply Z.eqb_eq in E. now subst.
  - apply Z.eqb_neq in E. intros [H|H]; [contradiction|now apply IH].
Qed.

(** C4. In every reachable store the cache of a thread holds at most 1000
    entries; a miss with the cache full removes the oldest entry only and
    appends the new one, a miss with room left removes nothing; a hit leaves
    the cache as it is (the entry is not moved to the back); and after 1001
    distinct keys, none of them cached before, have been queried in order,
    the first of them is absent while the 1000 that followed are the cache,
    in order, each present. *)
Theorem cache_is_bounded_fifo s t :
  reachable s ->
  Z.of_nat (length (s t)) <= 1000
  /\ (forall n, cache_find (s t) n = None ->
        snd (is_prime_cached t n s) t
        = (if Z.of_nat (length (s t)) =? 1000 then erase_begin (s t) else s t)
            ++ [(n, is_prime n)])
  /\ (forall n stored, cache_find (s t) n = Some stored ->
        snd (is_prime_cached t n s) t = s t)
  /\ (forall first rest,
        NoDup (first :: rest) -> Z.of_nat (length rest) = CACHE_SIZE ->
        (forall k, In k (first :: rest) -> cache_find (s t) k = None) ->
        let s' := query_all t (first :: rest) s in
        cache_find (s' t) first = None
        /\ (forall k, In k rest -> cache_find (s' t) k = Some (is_prime k))
        /\ cache_keys (s' t) = rest).
Proof.
  intros Hs. pose proof (reachable_cache_ok s Hs t) as Hok.
  assert (Hlen : Z.of_nat (length (s t)) <= 1000) by apply Hok.
  split; [assumption|]. split; [|split].
  - intros n E. rewrite is_prime_cached_snd_same, (cached_with_miss _ _ E).
    unfold CACHE_SIZE, entry_of. rewrite Z.geb_leb.
    destruct (Z.leb_spec 1000 (Z.of_nat (length (s t))));
      destruct (Z.eqb_spec (Z.of_nat (length (s t))) 1000); (reflexivity || lia).
  - intros n stored E. rewrite is_prime_cached_snd_same.
    now apply cached_with_hit with stored.
  - intros first rest Hnd Hrest Hmiss s'.
    assert (Hs' : s' t = map entry_of rest).
    { unfold s'. rewrite query_all_misses by assumption. unfold most_recent.
      cbn [map]. rewrite length_app. cbn [length]. rewrite length_map.
      replace (length (s t) + S (length rest) - Z.to_nat CACHE_SIZE)%nat
        with (length (s t) + 1)%nat by lia.
      rewrite skipn_app, (skipn_all2 (s t)) by lia.
      replace (length (s t) + 1 - length (s t))%nat with 1%nat by lia.
      reflexivity. }
    rewrite Hs'. split; [|split].
    + apply cache_find_none. unfold cache_keys. rewrite map_map. cbn [fst entry_of].
      rewrite map_id. now inversion Hnd.
    + intros k Hk. now apply cache_find_entries.
    + unfold cache_keys. rewrite map_map. cbn [fst entry_of]. apply map_id.
Qed.

Lemma NoDup_keys_upto n : NoDup (map Z.of_nat (seq 0 n)).
Proof.
  apply Finite.Injective_map_NoDup; [|apply seq_NoDup].
  intros a b. apply Nat2Z.inj.
Qed.

Lemma cache_is_bounded_fifo_witness :
  let s' := query_all 0%nat (map Z.of_nat (seq 0 1001)) tls_init in
  Z.of_nat (length (tls_init 0%nat)) <= 1000
  /\ cache_find (s' 0%nat) 0 = None
  /\ cache_keys (s' 0%nat) = map Z.of_nat (seq 1 1000).
Proof.
  intros s'.
  destruct (cache_is_bounded_fifo tls_init 0%nat reachable_init)
    as (Hlen & _ & _ & Hfifo).
  split; [exact Hlen|].
  destruct (Hfifo 0 (map Z.of_nat (seq 1 1000))) as (Hfirst & _ & Hkeys).
  - exact (NoDup_keys_upto 1001).
  - rewrite length_map, length_seq. reflexivity.
  - intros k _. reflexivity.
  - split; [exact Hfirst|exact Hkeys].
Defined.

(* ------------------------------------------------------------------ *)
(** ** The Fibonacci generator *)

Example fibonacci_first_10 :
  fib_values 10 (fibonacci_sequence 10)
  = Ret (map Some [0; 1; 1; 2; 3; 5; 8; 13; 21; 34]).
Proof. reflexivity. Qed.

Lemma F_step n : F (S (S n)) = F (S n) + F n.
Proof. reflexivity. Qed.

Lemma F_pair_spec n : F_pair n = (F n, F (S n)).
Proof.
  induction n as [|n IH]; [reflexivity|].
  cbn [F_pair]. rewrite IH. cbn [fst snd]. rewrite F_step. f_equal. lia.
Qed.

Lemma F_nonneg n : 0 <= F n /\ 0 <= F (S n).
Proof.
  induction n as [|n [IH1 IH2]]; [cbn; lia|].
  split; [assumption|]. rewrite F_step. lia.
Qed.

Lemma F_mono j k : (j <= k)%nat -> F j <= F k.
Proof.
  induction 1 as [|k Hle IH]; [lia|].
  destruct k as [|k]; [cbn in *; lia|].
  rewrite F_step. pose proof (F_nonneg k). lia.
Qed.

Lemma F_93_fits : F 93 < U64.
Proof.
  replace (F 93) with (fst (F_pair 93)) by (rewrite F_pair_spec; reflexivity).
  vm_compute. reflexivity.
Qed.

Lemma F_94_value : F 94 = 19740274219868223167.
Proof.
  replace (F 94) with (fst (F_pair 94)) by (rewrite F_pair_spec; reflexivity).
  vm_compute. reflexivity.
Qed.

Lemma fib_resume_yielding m j :
  Z.of_nat (S j) < m -> m <= U64 ->
  fib_resume (fib_yielding m j) = Ret (fib_yielding m (S j)).
Proof.
  intros Hj Hm. unfold fib_resume, fib_yielding. cbn [fib_at fib_a fib_b fib_i fib_max_count fib_value].
  unfold fib_loop.
  rewrite (u64_small (Z.of_nat j + 1)) by lia.
  replace (Z.of_nat j + 1) with (Z.of_nat (S j)) by lia.
  destruct (Z.ltb_spec (Z.of_nat (S j)) m); [|lia].
  rewrite (F_step j). unfold u64.
  rewrite <- Zplus_mod. now rewrite (Z.add_comm (F j)).
Qed.

Lemma fib_resume_last m j :
  Z.of_nat (S j) = m -> m < U64 ->
  exists g, fib_resume (fib_yielding m j) = Ret g
            /\ fib_at g = FibFinal /\ fib_value g = Some (u64 (F j)).
Proof.
  intros Hj Hm. unfold fib_resume, fib_yielding. cbn [fib_at fib_a fib_b fib_i fib_max_count fib_value].
  unfold fib_loop.
  rewrite (u64_small (Z.of_nat j + 1)) by lia.
  destruct (Z.ltb_spec (Z.of_nat j + 1) m); [lia|].
  eexists. split; [reflexivity|]. split; reflexivity.
Qed.

(** From the suspension that yielded F(j), [k] more calls. *)
Lemma fib_take_yielding m k : forall j,
  Z.of_nat (j + k) < m -> m <= U64 ->
  fib_take k (fib_yielding m j)
  = Ret (fib_expected (S j) k, fib_yielding m (j + k)).
Proof.
  induction k as [|k IH]; intros j Hj Hm.
  - cbn. now rewrite Nat.add_0_r.
  - cbn [fib_take]. unfold fib_next.
    rewrite fib_resume_yielding by lia. cbn [bind snd fst].
    rewrite IH by lia. cbn [bind snd fst].
    replace (S j + k)%nat with (j + S k)%nat by lia. reflexivity.
Qed.

Lemma fib_resume_initial m :
  0 < m -> fib_resume (fibonacci_sequence m) = Ret (fib_yielding m 0).
Proof.
  intros Hm. unfold fib_resume, fibonacci_sequence, fib_loop. cbn.
  destruct (Z.ltb_spec 0 m); [reflexivity|lia].
Qed.

(** The first [k + 1] calls, when at least that many values were asked. *)
Lemma fib_take_initial m k :
  Z.of_nat (S k) <= m -> m <= U64 ->
  fib_take (S k) (fibonacci_sequence m)
  = Ret (fib_expected 0 (S k), fib_yielding m k).
Proof.
  intros Hk Hm. cbn [fib_take]. unfold fib_next.
  rewrite fib_resume_initial by lia. cbn [bind snd fst].
  rewrite fib_take_yielding by lia. reflexivity.
Qed.

Lemma fib_expected_last k :
  last (fib_expected 0 (S k)) None = Some (u64 (F k)).
Proof.
  unfold fib_expected. rewrite seq_S, map_app. cbn [map Nat.add].
  apply last_last.
Qed.

Lemma fib_take_S k g :
  fib_take (S k) g
  = r <- fib_next g ;; rest <- fib_take k (snd r) ;;
    Ret (fst r :: fst rest, snd rest).
Proof. reflexivity. Qed.

Lemma fib_take_snoc k : forall g,
  fib_take (S k) g
  = r <- fib_take k g ;; r' <- fib_next (snd r) ;;
    Ret (fst r ++ [fst r'], snd r').
Proof.
  induction k as [|k IH]; intros g.
  - cbn. destruct (fib_next g) as [[v g']| |]; reflexivity.
  - rewrite (fib_take_S (S k) g), (fib_take_S k g).
    destruct (fib_next g) as [[v g']| |]; [|reflexivity..].
    cbn [bind snd fst]. rewrite IH.
    destruct (fib_take k g') as [[vs g'']| |]; [|reflexivity..].
    cbn [bind snd fst].
    destruct (fib_next g'') as [[v' g3]| |]; reflexivity.
Qed.

(** The call after the last value runs the coroutine to its end and
    returns what the promise still holds. *)
Lemma fib_take_exhaust m :
  is_u64 m ->
  exists g, fib_take (S (Z.to_nat m)) (fibonacci_sequence m)
            = Ret (fib_expected 0 (Z.to_nat m)
                     ++ [last (fib_expected 0 (Z.to_nat m)) None], g)
            /\ fib_at g = FibFinal.
Proof.
  intros [H0 Hm]. destruct (Z.to_nat m) as [|k] eqn:Ek.
  - assert (m = 0) by lia. subst m. cbn. eexists. split; reflexivity.
  - rewrite fib_take_snoc, fib_take_initial by lia. cbn [bind snd fst].
    unfold fib_next.
    destruct (fib_resume_last m k) as (g & Hg & Hat & Hval); [lia..|].
    rewrite Hg. cbn [bind snd fst]. rewrite Hval.
    exists g. split; [|assumption]. now rewrite fib_expected_last.
Qed.

Lemma fib_take_upto m k :
  is_u64 m -> Z.of_nat k <= m ->
  exists g, fib_take k (fibonacci_sequence m) = Ret (fib_expected 0 k, g)
            /\ fib_done g = false.
Proof.
  intros [H0 Hm] Hk. destruct k as [|k].
  - eexists. split; reflexivity.
  - rewrite fib_take_initial by lia. eexists. split; reflexivity.
Qed.

(** C5, as the code has it.  Two generators created by
    [fibonacci_sequence] with the same count return the same values, call
    for call; while at most [max_count] calls of [next()] have been made
    [done()] is false, and it is true after [max_count + 1] calls: the call
    after the last value is the one that runs the coroutine to its end. *)
Theorem fibonacci_deterministic_done_after_extra_call max_count g1 g2 :
  is_u64 max_count ->
  g1 = fibonacci_sequence max_count -> g2 = fibonacci_sequence max_count ->
  (forall k, fib_values k g1 = fib_values k g2)
  /\ (forall k, Z.of_nat k <= max_count ->
        fib_values k g1 = Ret (fib_expected 0 k)
        /\ fib_done_after k g1 = Ret false)
  /\ fib_done_after (S (Z.to_nat max_count)) g1 = Ret true.
Proof.
  intros Hm -> ->. split; [reflexivity|]. split.
  - intros k Hk. destruct (fib_take_upto max_count k Hm Hk) as (g & Hg & Hd).
    unfold fib_values, fib_done_after. rewrite Hg. cbn [bind fst snd].
    now rewrite Hd.
  - destruct (fib_take_exhaust max_count Hm) as (g & Hg & Hat).
    unfold fib_done_after. rewrite Hg. cbn [bind snd].
    unfold fib_done. now rewrite Hat.
Qed.

Lemma fibonacci_deterministic_done_after_extra_call_witness :
  (forall k, fib_values k (fibonacci_sequence 3) = fib_values k (fibonacci_sequence 3))
  /\ (forall k, Z.of_nat k <= 3 ->
        fib_values k (fibonacci_sequence 3) = Ret (fib_expected 0 k)
        /\ fib_done_after k (fibonacci_sequence 3) = Ret false)
  /\ fib_done_after 4 (fibonacci_sequence 3) = Ret true.
Proof.
  apply (fibonacci_deterministic_done_after_extra_call 3
           (fibonacci_sequence 3) (fibonacci_sequence 3)).
  - unfold is_u64, U64. lia.
  - reflexivity.
  - reflexivity.
Defined.

(** C5 as the specification words it fails: after [count] calls of
    [next()], here 3 of 3, [done()] is still false. *)
Lemma fibonacci_not_done_after_count_calls :
  fib_done_after 3 (fibonacci_sequence 3) = Ret false.
Proof. reflexivity. Qed.

(** C7, as the code has it.  Asked for at least [N] values ([N >= 1]), the
    generator returns F(N-1) modulo 2^64 at its [N]-th call, which is
    F(N-1) itself up to [N = 94]; it is then suspended with
    [(a, b) = (F(N-1), F(N))] modulo 2^64; and the first ten values are
    0, 1, 1, 2, 3, 5, 8, 13, 21, 34. *)
Theorem fibonacci_nth_value_mod_2_64 max_count N :
  is_u64 max_count -> (1 <= N)%nat -> Z.of_nat N <= max_count ->
  fib_nth N (fibonacci_sequence max_count) = Ret (Some (F (N - 1) mod U64))
  /\ ((N <= 94)%nat -> F (N - 1) mod U64 = F (N - 1))
  /\ (exists g, fib_take N (fibonacci_sequence max_count)
                = Ret (fib_expected 0 N, g)
                /\ fib_a g = u64 (F (N - 1)) /\ fib_b g = u64 (F N))
  /\ (10 <= max_count ->
      fib_values 10 (fibonacci_sequence max_count)
      = Ret (map Some [0; 1; 1; 2; 3; 5; 8; 13; 21; 34])).
Proof.
  intros [H0 Hm] HN Hle. destruct N as [|k]; [lia|].
  replace (S k - 1)%nat with k by lia.
  split; [|split; [|split]].
  - unfold fib_nth. rewrite fib_take_initial by lia. cbn [bind fst].
    now rewrite fib_expected_last.
  - intros Hk. apply Z.mod_small. split; [apply F_nonneg|].
    apply Z.le_lt_trans with (F 93); [apply F_mono; lia|apply F_93_fits].
  - exists (fib_yielding max_count k). rewrite fib_take_initial by lia.
    repeat split.
  - intros H10. unfold fib_values.
    rewrite (fib_take_initial max_count 9) by lia. reflexivity.
Qed.

Lemma fibonacci_nth_value_mod_2_64_witness :
  fib_nth 95 (fibonacci_sequence 100) = Ret (Some (F (95 - 1) mod U64))
  /\ ((95 <= 94)%nat -> F (95 - 1) mod U64 = F (95 - 1))
  /\ (exists g, fib_take 95 (fibonacci_sequence 100)
                = Ret (fib_expected 0 95, g)
                /\ fib_a g = u64 (F (95 - 1)) /\ fib_b g = u64 (F 95))
  /\ (10 <= 100 ->
      fib_values 10 (fibonacci_sequence 100)
      = Ret (map Some [0; 1; 1; 2; 3; 5; 8; 13; 21; 34])).
Proof.
  apply (fibonacci_nth_value_mod_2_64 100 95).
  - unfold is_u64, U64. lia.
  - lia.
  - lia.
Defined.

Lemma fib_nth_95 :
  fib_nth 95 (fibonacci_sequence 95) = Ret (Some 1293530146158671551).
Proof. vm_compute. reflexivity. Qed.

(** C7 as the specification words it fails: the 95th value of
    [fibonacci_sequence(95)] is not F(94) = 19740274219868223167, which
    does not fit 64 bits, but 1293530146158671551. *)
Lemma fibonacci_95th_value_is_not_F94 :
  fib_nth 95 (fibonacci_sequence 95) <> Ret (Some (F 94)).
Proof. rewrite fib_nth_95, F_94_value. discriminate. Qed.

(* ------------------------------------------------------------------ *)
(** ** The concurrent counter *)

Example count_primes_1_100 :
  map (count_primes 200 1 100) [1; 2; 3; 4; 7; 8]
  = [Ret 25; Ret 25; Ret 25; Ret 25; Ret 25; Ret 25].
Proof. vm_compute. reflexivity. Qed.

Example chunks_1_100_8 :
  chunks 1 100 8
  = Ret [(1, 12); (13, 24); (25, 36); (37, 48); (49, 60); (61, 72);
         (73, 84); (85, 100)].
Proof. reflexivity. Qed.

Example chunks_0_1_4 :
  chunks 0 1 4
  = Ret [(0, 18446744073709551615); (0, 18446744073709551615);
         (0, 18446744073709551615); (0, 1)].
Proof. reflexivity. Qed.

Example count_primes_reversed_range : count_primes 1 10 5 1 = Ret 0.
Proof. reflexivity. Qed.

(** *** One worker *)

(** A worker whose chunk ends at the largest [uint64_t] never leaves its
    loop: [n <= chunk_end] holds for every [n]. *)
Lemma worker_loop_never_ends fuel : forall n local_count,
  is_u64 n -> worker_loop fuel n (U64 - 1) local_count = OutOfFuel.
Proof.
  induction fuel as [|fuel IH]; intros n lc Hn; [reflexivity|].
  cbn [worker_loop]. unfold is_u64 in Hn.
  destruct (Z.leb_spec n (U64 - 1)); [|lia].
  apply IH, u64_range.
Qed.

Lemma worker_loop_not_undefined fuel : forall n cend local_count,
  worker_loop fuel n cend local_count <> Undefined.
Proof.
  induction fuel as [|fuel IH]; intros n cend lc; [discriminate|].
  cbn [worker_loop]. destruct (n <=? cend); [apply IH|discriminate].
Qed.

Lemma prime_count_bounds a len : 0 <= prime_count a len <= Z.of_nat len.
Proof.
  revert a. induction len as [|len IH]; intros a; cbn [prime_count]; [lia|].
  specialize (IH (a + 1)). destruct (is_prime a); lia.
Qed.

Lemma prime_count_app a l1 l2 :
  prime_count a (l1 + l2) = prime_count a l1 + prime_count (a + Z.of_nat l1) l2.
Proof.
  revert a. induction l1 as [|l1 IH]; intros a.
  - cbn. f_equal. lia.
  - cbn [Nat.add prime_count]. rewrite IH.
    replace (a + 1 + Z.of_nat l1) with (a + Z.of_nat (S l1)) by lia. lia.
Qed.

(** A worker whose chunk ends below the largest [uint64_t] counts what
    [is_prime] accepts in it. *)
Lemma worker_loop_counts len : forall fuel n cend local_count,
  0 <= n -> n + Z.of_nat len = cend + 1 -> cend + 1 < U64 ->
  (len < fuel)%nat ->
  0 <= local_count -> local_count + Z.of_nat len < U64 ->
  worker_loop fuel n cend local_count = Ret (local_count + prime_count n len).
Proof.
  induction len as [|len IH]; intros fuel n cend lc H0 Hlen Hend Hfuel Hlc Hsum;
    (destruct fuel as [|fuel]; [lia|]); cbn [worker_loop prime_count].
  - destruct (Z.leb_spec n cend); [lia|]. f_equal. lia.
  - destruct (Z.leb_spec n cend); [|lia].
    rewrite (u64_small (n + 1)) by lia.
    rewrite IH; try lia.
    + f_equal. destruct (is_prime n); [rewrite u64_small|]; lia.
    + destruct (is_prime n); [rewrite u64_small|]; lia.
    + destruct (is_prime n); [rewrite u64_small|]; lia.
Qed.

Lemma worker_counts fuel a b :
  0 <= a <= b + 1 -> b + 1 < U64 -> b - a + 1 < Z.of_nat fuel ->
  worker fuel (a, b) = Ret (primes_between a b).
Proof.
  intros Ha Hb Hfuel. unfold worker, primes_between. cbn [fst snd].
  rewrite (worker_loop_counts (Z.to_nat (b - a + 1))); try lia.
  reflexivity.
Qed.

(** *** The threads together *)

Lemma fetch_add_comm count x y :
  fetch_add (fetch_add count x) y = fetch_add (fetch_add count y) x.
Proof.
  unfold fetch_add, u64. rewrite !Zplus_mod_idemp_l. f_equal. lia.
Qed.

(** The order in which the threads reach their [fetch_add] does not show
    in the counter. *)
Lemma run_threads_permutation fuel cs cs' :
  Permutation cs cs' ->
  forall count, run_threads fuel cs count = run_threads fuel cs' count.
Proof.
  induction 1 as [|c cs cs' _ IH|c1 c2 cs|cs1 cs2 cs3 _ IH1 _ IH2]; intros count.
  - reflexivity.
  - cbn [run_threads]. destruct (worker fuel c); cbn [bind]; auto.
  - cbn [run_threads]. unfold worker.
    pose proof (worker_loop_not_undefined fuel (fst c1) (snd c1) 0) as N1.
    pose proof (worker_loop_not_undefined fuel (fst c2) (snd c2) 0) as N2.
    destruct (worker_loop fuel (fst c1) (snd c1) 0) as [x| |];
      destruct (worker_loop fuel (fst c2) (snd c2) 0) as [y| |];
      cbn [bind]; try reflexivity; try contradiction.
    now rewrite fetch_add_comm.
  - now rewrite IH1.
Qed.

Lemma run_threads_stuck fuel c cs :
  In c cs -> worker fuel c = OutOfFuel ->
  forall count, run_threads fuel cs count = OutOfFuel.
Proof.
  intros Hin Hc. induction cs as [|c' cs IH]; [destruct Hin|]. intros count.
  cbn [run_threads]. destruct Hin as [->|Hin].
  - now rewrite Hc.
  - pose proof (worker_loop_not_undefined fuel (fst c') (snd c') 0) as N.
    unfold worker in *.
    destruct (worker_loop fuel (fst c') (snd c') 0); cbn [bind];
      [now apply IH|reflexivity|contradiction].
Qed.

Lemma consecutive_le a cs e : consecutive a cs e -> a <= e + 1.
Proof. induction 1; lia. Qed.

(** Over consecutive chunks the threads count what one scan of the whole
    range counts. *)
Lemma run_threads_consecutive fuel a cs e :
  consecutive a cs e ->
  forall count, 0 <= a -> e + 1 < U64 -> e - a + 1 < Z.of_nat fuel ->
  0 <= count -> count + (e - a + 1) < U64 ->
  run_threads fuel cs count = Ret (count + primes_between a e).
Proof.
  induction 1 as [a e Hae|a b rest e Hab Hrest IH];
    intros count Ha He Hfuel Hc Hsum.
  - cbn [run_threads]. rewrite worker_counts by lia. cbn [bind].
    unfold fetch_add. rewrite u64_small; [reflexivity|].
    unfold primes_between.
    pose proof (prime_count_bounds a (Z.to_nat (e - a + 1))). lia.
  - pose proof (consecutive_le _ _ _ Hrest) as Hbe.
    cbn [run_threads]. rewrite worker_counts by lia. cbn [bind].
    assert (Hpc : 0 <= primes_between a b <= b - a + 1).
    { unfold primes_between.
      pose proof (prime_count_bounds a (Z.to_nat (b - a + 1))). lia. }
    unfold fetch_add. rewrite u64_small by lia.
    rewrite IH by lia. f_equal. unfold primes_between.
    replace (Z.to_nat (e - a + 1))
      with (Z.to_nat (b - a + 1) + Z.to_nat (e - (b + 1) + 1))%nat by lia.
    rewrite prime_count_app. rewrite Z2Nat.id by lia.
    replace (a + (b - a + 1)) with (b + 1) by lia. lia.
Qed.

(** *** The partition *)

Section Partition.
Variables start end_ thread_count : Z.
Hypothesis Hsafe : partition_safe start end_ thread_count.

Let csize : Z := (end_ - start + 1) / thread_count.

Lemma chunk_size_safe :
  chunk_size start end_ thread_count = Ret csize.
Proof.
  destruct Hsafe as (Hse & HL & He & Ht & _). unfold chunk_size.
  destruct (Z.eqb_spec thread_count 0); [lia|].
  rewrite u64_small by lia. reflexivity.
Qed.

Lemma csize_bounds :
  0 <= csize /\ thread_count * csize <= end_ - start + 1
  /\ (1 <= start \/ 1 <= csize).
Proof.
  destruct Hsafe as (Hse & HL & He & Ht & Hz). unfold csize.
  split; [apply Z.div_pos; lia|].
  split; [apply Z.mul_div_le; lia|].
  destruct Hz as [Hz|Hz]; [now left|right].
  apply Z.div_le_lower_bound; lia.
Qed.

Lemma chunk_of_safe i :
  0 <= i < thread_count ->
  chunk_of start end_ thread_count csize i
  = (start + i * csize,
     if i =? thread_count - 1 then end_ else start + (i + 1) * csize - 1).
Proof.
  intros Hi. destruct csize_bounds as (Hc0 & Hmul & Hz).
  destruct Hsafe as (Hse & HL & He & Ht & _).
  unfold chunk_of, chunk_start, chunk_end.
  assert (Hi1 : (i + 1) * csize <= thread_count * csize) by nia.
  assert (Hi0 : 0 <= i * csize <= (i + 1) * csize) by nia.
  assert (Hi3 : i * csize <= end_ - start).
  { destruct (Z.eq_dec csize 0) as [E0|E0]; [rewrite E0|]; nia. }
  rewrite (u64_small (i * csize)) by lia.
  rewrite (u64_small (start + i * csize)) by lia.
  rewrite (u32_small (thread_count - 1)) by lia.
  destruct (Z.eqb_spec i (thread_count - 1)) as [E|E]; [reflexivity|].
  assert (Hi2 : (i + 2) * csize <= thread_count * csize) by nia.
  f_equal.
  replace (start + i * csize + csize) with (start + (i + 1) * csize) by lia.
  rewrite (u64_small (start + (i + 1) * csize)) by nia.
  apply u64_small. destruct Hz; nia.
Qed.

Lemma chunks_from_consecutive k : forall i,
  (i + S k)%nat = Z.to_nat thread_count ->
  consecutive (start + Z.of_nat i * csize)
    (map (fun j => chunk_of start end_ thread_count csize (Z.of_nat j))
         (seq i (S k)))
    end_.
Proof.
  destruct csize_bounds as (Hc0 & Hmul & Hz).
  induction k as [|k IH]; intros i Hi.
  - cbn [seq map]. rewrite chunk_of_safe by lia.
    destruct (Z.eqb_spec (Z.of_nat i) (thread_count - 1)); [|lia].
    apply consecutive_last. nia.
  - cbn [seq map]. rewrite chunk_of_safe by lia.
    destruct (Z.eqb_spec (Z.of_nat i) (thread_count - 1)); [lia|].
    apply consecutive_next; [nia|].
    replace (start + (Z.of_nat i + 1) * csize - 1 + 1)
      with (start + Z.of_nat (S i) * csize) by lia.
    apply (IH (S i)). lia.
Qed.

Lemma chunks_safe :
  exists cs, chunks start end_ thread_count = Ret cs
             /\ consecutive start cs end_
             /\ Z.of_nat (length cs) = thread_count.
Proof.
  unfold chunks. rewrite chunk_size_safe. cbn [bind].
  exists (chunks_with start end_ thread_count csize).
  destruct Hsafe as (Hse & HL & He & Ht & _).
  split; [reflexivity|]. split.
  - unfold chunks_with.
    destruct (Z.to_nat thread_count) as [|k] eqn:Ek; [lia|].
    replace start with (start + Z.of_nat 0 * csize) at 1 by lia.
    apply chunks_from_consecutive. rewrite Ek. reflexivity.
  - unfold chunks_with. rewrite length_map, length_seq. lia.
Qed.

End Partition.

Lemma consecutive_within a cs e :
  consecutive a cs e ->
  forall c n, In c cs -> in_chunk n c -> a <= n <= e.
Proof.
  unfold in_chunk.
  induction 1 as [a e Hae|a b rest e Hab Hrest IH]; intros c n Hin Hn.
  - destruct Hin as [<-|[]]. cbn [fst snd] in Hn. lia.
  - pose proof (consecutive_le _ _ _ Hrest).
    destruct Hin as [<-|Hin]; [cbn [fst snd] in Hn; lia|].
    specialize (IH c n Hin Hn). lia.
Qed.

Lemma consecutive_covers a cs e :
  consecutive a cs e ->
  forall n, a <= n <= e -> Exists (in_chunk n) cs.
Proof.
  induction 1 as [a e Hae|a b rest e Hab Hrest IH]; intros n Hn.
  - apply Exists_cons_hd. unfold in_chunk. cbn [fst snd]. lia.
  - destruct (Z_le_gt_dec n b).
    + apply Exists_cons_hd. unfold in_chunk. cbn [fst snd]. lia.
    + apply Exists_cons_tl. apply IH. lia.
Qed.

Lemma consecutive_disjoint a cs e :
  consecutive a cs e -> ForallOrdPairs disjoint cs.
Proof.
  induction 1 as [a e Hae|a b rest e Hab Hrest IH].
  - constructor; constructor.
  - constructor; [|assumption].
    apply Forall_forall. intros c Hc n [H1 H2].
    pose proof (consecutive_within _ _ _ Hrest c n Hc H2).
    unfold in_chunk in H1. cbn [fst snd] in H1. lia.
Qed.

(** Where [partition_safe] holds, the chunks of [count_primes] are
    pairwise disjoint, cover exactly [start, end], and have the size
    [(end - start + 1) / thread_count] each, the last one taking the
    remainder as well. *)
Lemma chunks_partition start end_ thread_count :
  partition_safe start end_ thread_count ->
  exists cs,
    chunks start end_ thread_count = Ret cs
    /\ Z.of_nat (length cs) = thread_count
    /\ ForallOrdPairs disjoint cs
    /\ (forall n, start <= n <= end_ <-> Exists (in_chunk n) cs)
    /\ (forall i, (S i < length cs)%nat ->
          chunk_length (nth i cs (0, 0)) = (end_ - start + 1) / thread_count)
    /\ chunk_length (last cs (0, 0))
       = (end_ - start + 1) / thread_count + (end_ - start + 1) mod thread_count.
Proof.
  intros Hsafe.
  destruct (chunks_safe _ _ _ Hsafe) as (cs & Hcs & Hcons & Hlen).
  exists cs. split; [assumption|]. split; [assumption|].
  split; [now apply consecutive_disjoint with start end_|].
  split.
  { intros n. split; [now apply consecutive_covers|].
    rewrite Exists_exists. intros (c & Hc & Hn).
    now apply (consecutive_within _ _ _ Hcons c). }
  unfold chunks in Hcs. rewrite (chunk_size_safe _ _ _ Hsafe) in Hcs.
  cbn [bind] in Hcs. injection Hcs as <-.
  pose proof Hsafe as (Hse & HL & He & Ht & _).
  unfold chunks_with in *. rewrite length_map, length_seq in *.
  split.
  - intros i Hi. rewrite nth_indep with (d' := chunk_of start end_ thread_count
      ((end_ - start + 1) / thread_count) (Z.of_nat 0))
      by (rewrite length_map, length_seq; lia).
    rewrite (map_nth (fun j => chunk_of start end_ thread_count
      ((end_ - start + 1) / thread_count) (Z.of_nat j))).
    rewrite seq_nth by lia. rewrite chunk_of_safe by (assumption || lia).
    destruct (Z.eqb_spec (Z.of_nat (0 + i)) (thread_count - 1)); [lia|].
    unfold chunk_length. cbn [fst snd]. lia.
  - destruct (Z.to_nat thread_count) as [|k] eqn:Ek; [lia|].
    rewrite seq_S, map_app. cbn [map Nat.add]. rewrite last_last.
    rewrite chunk_of_safe by (assumption || lia).
    destruct (Z.eqb_spec (Z.of_nat k) (thread_count - 1)); [|lia].
    unfold chunk_length. cbn [fst snd].
    pose proof (Z.div_mod (end_ - start + 1) thread_count). nia.
Qed.

(** Where [partition_safe] holds and the range ends below the largest
    [uint64_t], [count_primes] returns what one scan of the range with
    [is_prime] counts, for every thread count and every order in which the
    threads finish. *)
Lemma count_primes_counts completion start end_ thread_count :
  (forall cs, Permutation cs (completion cs)) ->
  partition_safe start end_ thread_count -> end_ + 1 < U64 ->
  terminates
    (fun fuel => count_primes_in_order completion fuel start end_ thread_count)
    (primes_between start end_).
Proof.
  intros Hperm Hsafe Hend.
  destruct (chunks_safe _ _ _ Hsafe) as (cs & Hcs & Hcons & _).
  pose proof Hsafe as (Hse & HL & He & Ht & _).
  exists (S (Z.to_nat (end_ - start + 1))). intros fuel Hfuel.
  unfold count_primes_in_order. rewrite Hcs. cbn [bind].
  rewrite <- (run_threads_permutation fuel cs (completion cs) (Hperm cs)).
  rewrite (run_threads_consecutive fuel start cs end_ Hcons) by lia.
  reflexivity.
Qed.

(** The same value for any two thread counts. *)
Lemma count_primes_thread_counts_agree start end_ t1 t2 :
  partition_safe start end_ t1 -> partition_safe start end_ t2 ->
  end_ + 1 < U64 ->
  exists v, terminates (fun fuel => count_primes fuel start end_ t1) v
            /\ terminates (fun fuel => count_primes fuel start end_ t2) v
            /\ terminates (fun fuel => count_primes fuel start end_ 1) v.
Proof.
  intros H1 H2 Hend. exists (primes_between start end_).
  assert (Hone : partition_safe start end_ 1).
  { destruct H1 as (? & ? & ? & ? & ?). unfold partition_safe, U32. lia. }
  repeat split; apply count_primes_counts; auto.
Qed.

(** *** Where the partition wraps *)

(** C1, at [count_primes(0, 1, 4)].  With one thread the call returns 0.
    With four threads the chunk size is 0, the first three chunks end at
    [0 + 0 - 1], which wraps to 2^64 - 1, and their workers never leave the
    loop, in whatever order the threads run: the call does not return. *)
Theorem count_primes_0_1_hangs_with_4_threads :
  terminates (fun fuel => count_primes fuel 0 1 1) 0
  /\ forall completion, (forall cs, Permutation cs (completion cs)) ->
       diverges (fun fuel => count_primes_in_order completion fuel 0 1 4).
Proof.
  split.
  - exists 3%nat. intros fuel Hfuel.
    do 3 (destruct fuel as [|fuel]; [lia|]). reflexivity.
  - intros completion Hperm fuel. unfold count_primes_in_order.
    change (chunks 0 1 4)
      with (Ret [(0, U64 - 1); (0, U64 - 1); (0, U64 - 1); (0, 1)]).
    cbn [bind]. apply run_threads_stuck with (0, U64 - 1).
    + eapply Permutation_in; [apply Hperm|]. now left.
    + apply worker_loop_never_ends. unfold is_u64, U64. cbn [fst]. lia.
Qed.

(** C2, at [count_primes(0, 1, 4)].  The four chunks are [0, 2^64 - 1]
    three times and [0, 1]: the first and the last both hold 0, the first
    holds 2, which is outside [0, 1], and its size is 2^64 where
    [(1 - 0 + 1) / 4] is 0. *)
Theorem chunks_0_1_4_overlap :
  exists c0 c1 c2 c3,
    chunks 0 1 4 = Ret [c0; c1; c2; c3]
    /\ ~ disjoint c0 c3
    /\ in_chunk 2 c0
    /\ chunk_length c0 = U64 /\ (1 - 0 + 1) / 4 = 0.
Proof.
  exists (0, U64 - 1), (0, U64 - 1), (0, U64 - 1), (0, 1).
  split; [reflexivity|]. split; [|split; [|split]].
  - intros H. apply (H 0). unfold in_chunk, U64. cbn. lia.
  - unfold in_chunk, U64. cbn. lia.
  - reflexivity.
  - reflexivity.
Qed.

(** *** No validation of the arguments *)

(** C9 as the specification words it fails: [count_primes(10, 5, 1)], a
    range with [start > end], returns 0. *)
Lemma count_primes_10_5_returns_0 : count_primes 1 10 5 1 = Ret 0.
Proof. reflexivity. Qed.

(** C9, as the code has it.  [count_primes] checks nothing.  A range with
    [start > end] given to one thread is an empty scan and the call returns
    0; a [thread_count] of 0, whatever the range, makes the chunk size a
    division by zero, undefined behaviour, before any thread is created. *)
Theorem count_primes_validates_nothing fuel start end_ :
  (is_u64 start -> is_u64 end_ -> end_ < start -> (0 < fuel)%nat ->
   count_primes fuel start end_ 1 = Ret 0)
  /\ count_primes fuel start end_ 0 = Undefined
  /\ chunks start end_ 0 = Undefined.
Proof.
  split; [|split; reflexivity]. intros Hs He Hlt Hfuel.
  assert (Hchunks : chunks start end_ 1 = Ret [(start, end_)]).
  { unfold chunks, chunk_size. cbn [Z.eqb bind].
    unfold chunks_with, chunk_of, chunk_start, chunk_end.
    change (Z.to_nat 1) with 1%nat. cbn [seq map Z.of_nat Z.mul].
    change (u64 0) with 0. rewrite Z.add_0_r, (u64_small start) by assumption.
    reflexivity. }
  unfold count_primes, count_primes_in_order. rewrite Hchunks. cbn [bind].
  cbn [run_threads]. unfold worker. cbn [fst snd].
  destruct fuel as [|fuel]; [lia|]. cbn [worker_loop].
  destruct (Z.leb_spec start end_); [lia|]. reflexivity.
Qed.

Lemma count_primes_validates_nothing_witness :
  count_primes 1 10 5 1 = Ret 0
  /\ count_primes 1 1 100 0 = Undefined
  /\ chunks 1 100 0 = Undefined.
Proof.
  split; [|split].
  - apply (count_primes_validates_nothing 1 10 5); unfold is_u64, U64; lia.
  - apply (count_primes_validates_nothing 1 1 100).
  - apply (count_primes_validates_nothing 1 1 100).
Defined.

(* ------------------------------------------------------------------ *)
(** ** The prime generator *)

Example prime_sequence_10 :
  gen_values 20 10 (generate_primes 10)
  = Ret (map Some [2; 3; 5; 7; 11; 13; 17; 19; 23; 29]).
Proof. vm_compute. reflexivity. Qed.

Example prime_sequence_0 :
  gen_values 20 1 (generate_primes 0) = Ret [Some 2].
Proof. reflexivity. Qed.

(** *** Trial division *)

Lemma SQUARE_SAFE_root i :
  i mod 2 = 1 -> 3 <= i -> (i = 3 \/ (i - 2) * (i - 2) < SQUARE_SAFE) ->
  0 <= i * i < U64.
Proof.
  intros Hodd H3 Hi.
  assert (Hlt : i - 2 < 4294967295).
  { destruct Hi as [->|Hi]; [lia|].
    apply square_lt_cancel; [lia|]. exact Hi. }
  assert (i <= 4294967295) by (Z.div_mod_to_equations; lia).
  unfold U64. nia.
Qed.

Lemma trial_loop_prime fuel : forall num i,
  prime num -> num < SQUARE_SAFE ->
  i mod 2 = 1 -> 3 <= i -> (i = 3 \/ (i - 2) * (i - 2) <= num) ->
  num - i < Z.of_nat fuel -> (0 < fuel)%nat ->
  trial_loop fuel num i = Ret true.
Proof.
  induction fuel as [|fuel IH]; intros num i Hp Hsafe Hodd H3 Hinv Hfuel Hpos; [lia|].
  cbn [trial_loop].
  assert (Hsq : 0 <= i * i < U64) by (apply SQUARE_SAFE_root; auto; lia).
  rewrite (u64_small (i * i)) by assumption.
  destruct (Z.leb_spec (i * i) num) as [Hle|]; [|reflexivity].
  assert (Hlt : i < num) by nia.
  destruct (Z.eqb_spec (num mod i) 0) as [E|E].
  - exfalso. apply prime_alt in Hp as [_ Hp]. apply (Hp i); [lia|].
    apply divide_mod_zero; [lia|assumption].
  - rewrite (u64_small (i + 2)) by (unfold U64 in *; nia).
    apply IH; try assumption; try lia.
    now apply odd_plus_2.
Qed.

Lemma trial_loop_divisor fuel : forall num i d,
  num < U64 -> 3 <= i <= d -> i mod 2 = 1 -> d mod 2 = 1 ->
  d * d <= num -> (d | num) -> d - i < 2 * Z.of_nat fuel ->
  trial_loop fuel num i = Ret false.
Proof.
  induction fuel as [|fuel IH]; intros num i d Hnum Hi Hio Hdo Hdd Hdiv Hfuel; [lia|].
  cbn [trial_loop].
  assert (Hii : i * i <= d * d) by (apply square_le_mono; lia).
  rewrite (u64_small (i * i)) by nia.
  destruct (Z.leb_spec (i * i) num); [|lia].
  destruct (Z.eqb_spec (num mod i) 0) as [E|E]; [reflexivity|].
  assert (Hne : i <> d).
  { intros ->. apply E. apply divide_mod_zero; [lia|assumption]. }
  assert (Hstep : i + 2 <= d) by (apply odd_lt_step; auto; lia).
  rewrite (u64_small (i + 2)) by nia.
  apply IH with d; try assumption; try lia.
  now apply odd_plus_2.
Qed.

Lemma WRAP_EXIT_square : u64 (WRAP_EXIT * WRAP_EXIT) = U64 - 7.
Proof. vm_compute. reflexivity. Qed.

(** On a prime above [WRAP_EXIT] the squares of the loop may wrap, and
    the loop goes on past the square root; it finds no divisor, the
    divisors it tries being below the prime, and it ends at [WRAP_EXIT]
    at the latest. *)
Lemma trial_loop_prime_wrapped fuel : forall num i,
  prime num -> WRAP_EXIT < num < U64 ->
  i mod 2 = 1 -> 3 <= i <= WRAP_EXIT ->
  WRAP_EXIT - i < 2 * Z.of_nat fuel ->
  trial_loop fuel num i = Ret true.
Proof.
  induction fuel as [|fuel IH]; intros num i Hp Hnum Hodd Hi Hfuel; [lia|].
  cbn [trial_loop].
  destruct (Z.leb_spec (u64 (i * i)) num) as [Hle|]; [|reflexivity].
  destruct (Z.eqb_spec (num mod i) 0) as [E|E].
  - exfalso. apply prime_alt in Hp as [_ Hp]. apply (Hp i); [lia|].
    apply divide_mod_zero; [lia|assumption].
  - assert (Hne : i <> WRAP_EXIT).
    { intros ->. rewrite WRAP_EXIT_square in Hle.
      pose proof (prime_below_U64 num Hp ltac:(lia)). lia. }
    assert (Hstep : i + 2 <= WRAP_EXIT)
      by (apply odd_lt_step; [assumption|reflexivity|lia]).
    rewrite (u64_small (i + 2)) by (unfold WRAP_EXIT, U64 in *; lia).
    apply IH; try assumption; try lia.
    now apply odd_plus_2.
Qed.

(** The trial loop from 3 decides the primality of every odd number of
    64 bits. *)
Lemma trial_loop_decides fuel num :
  3 <= num < U64 -> num mod 2 = 1 -> num < Z.of_nat fuel ->
  trial_loop fuel num 3 = Ret (if prime_dec num then true else false).
Proof.
  intros Hnum Hodd Hfuel. destruct (prime_dec num) as [Hp|Hnp].
  - destruct (Z_lt_ge_dec num SQUARE_SAFE) as [Hlt|Hge].
    + apply trial_loop_prime; auto; lia.
    + apply trial_loop_prime_wrapped; auto; unfold WRAP_EXIT, SQUARE_SAFE in *; lia.
  - destruct (odd_composite_divisor num) as (d & Hd3 & Hdo & Hdd & Hdiv);
      [lia|assumption..|].
    apply trial_loop_divisor with d; auto; try lia. nia.
Qed.

(** *** The scan for the next prime *)

Lemma scan_finds_next fuel : forall max_count count num p value,
  count < max_count ->
  3 <= num <= p -> num mod 2 = 1 -> prime p -> p < U64 ->
  (forall x, num <= x < p -> ~ prime x) ->
  p + (p - num) + 1 < Z.of_nat fuel ->
  scan fuel max_count count num value = Ret (gen_yielding max_count count p).
Proof.
  induction fuel as [|fuel IH];
    intros m count num p value Hc Hnum Hodd Hp Hsafe Hgap Hfuel; [lia|].
  cbn [scan]. destruct (Z.ltb_spec count m); [|lia].
  rewrite trial_loop_decides by lia. cbn [bind].
  destruct (prime_dec num) as [Hpn|Hnp].
  - assert (num = p).
    { destruct (Z.eq_dec num p); [assumption|].
      exfalso. apply (Hgap num); [lia|assumption]. }
    subst. reflexivity.
  - assert (Hlt : num < p) by (destruct (Z.eq_dec num p); [now subst|lia]).
    assert (Hpo : p mod 2 = 1) by (apply prime_odd; [assumption|lia]).
    assert (Hstep : num + 2 <= p) by now apply odd_lt_step.
    rewrite (u64_small (num + 2)) by lia.
    apply IH; try assumption; try lia.
    + now apply odd_plus_2.
    + intros x Hx. apply Hgap. lia.
Qed.

Lemma primes_after_head_odd p q l :
  2 <= p -> primes_after p (q :: l) -> 3 <= q /\ q mod 2 = 1.
Proof.
  intros Hp H. inversion H; subst.
  split; [lia|]. apply prime_odd; [assumption|lia].
Qed.

(** From the suspension that yielded the odd prime [p], the next calls
    return the primes after [p]. *)
Lemma gen_take_yielding l : forall fuel max_count count p,
  primes_after p l -> 3 <= p -> p mod 2 = 1 ->
  Forall (fun q => q < U64) l ->
  count + Z.of_nat (length l) < max_count -> max_count < U64 -> 0 <= count ->
  (scan_fuel l <= fuel)%nat ->
  gen_take fuel (length l) (gen_yielding max_count count p)
  = Ret (map Some l,
         gen_yielding max_count (count + Z.of_nat (length l)) (last l p)).
Proof.
  induction l as [|q l IH];
    intros fuel m count p Hafter Hp3 Hpodd Hsafe Hcount Hm Hc0 Hfuel.
  - cbn. now rewrite Z.add_0_r.
  - inversion Hafter as [|? ? ? Hpq Hq Hgap Hrest]; subst.
    inversion Hsafe as [|? ? Hqsafe Hsafe']; subst.
    destruct (primes_after_head_odd p q l ltac:(lia) Hafter) as [Hq3 Hqodd].
    cbn [length] in Hcount. cbn [scan_fuel] in Hfuel.
    cbn [gen_take length]. unfold gen_next.
    unfold gen_resume at 1. cbn [gen_at gen_yielding gen_max_count gen_count gen_num gen_value].
    assert (Hstep : p + 2 <= q) by (apply odd_lt_step; assumption).
    rewrite (u64_small (count + 1)) by lia.
    rewrite (u64_small (p + 2)) by lia.
    rewrite (scan_finds_next fuel m (count + 1) (p + 2) q); try assumption; try lia.
    + cbn [bind snd fst]. fold (gen_yielding m (count + 1) q).
      rewrite IH; try assumption; try lia.
      cbn [bind snd fst gen_value gen_yielding map].
      rewrite last_cons_default. do 3 f_equal. lia.
    + now apply odd_plus_2.
    + intros x Hx. apply Hgap. lia.
Qed.

(** *** Checking a list of primes by trial division *)

Lemma odd_prime_b_sound x :
  3 <= x < U64 -> x mod 2 = 1 -> odd_prime_b x = true -> prime x.
Proof.
  intros Hx Hodd. unfold odd_prime_b.
  rewrite trial_loop_decides by lia.
  destruct (prime_dec x); [auto|discriminate].
Qed.

Lemma composite_b_sound x :
  2 < x < U64 -> composite_b x = true -> ~ prime x.
Proof.
  intros Hx. unfold composite_b.
  destruct (Z.eqb_spec (x mod 2) 0) as [E|E].
  - intros _ Hp. apply prime_odd in Hp; lia.
  - assert (Hodd : x mod 2 = 1).
    { pose proof (Z.mod_pos_bound x 2 eq_refl). lia. }
    rewrite trial_loop_decides by lia.
    destruct (prime_dec x); [discriminate|auto].
Qed.

Lemma Zrange_In a n x : a <= x < a + Z.of_nat n -> In x (Zrange a n).
Proof.
  intros Hx. unfold Zrange. apply in_map_iff.
  exists (Z.to_nat (x - a)). split; [lia|]. apply in_seq. lia.
Qed.

Lemma primes_after_b_sound l : forall p,
  2 <= p -> Forall (fun q => q < U64) l ->
  primes_after_b p l = true -> primes_after p l.
Proof.
  induction l as [|q l IH]; intros p Hp Hsafe Hb; [constructor|].
  inversion Hsafe; subst. cbn [primes_after_b] in Hb.
  repeat (apply andb_prop in Hb as [Hb ?]).
  apply Z.ltb_lt in Hb.
  match goal with H : (q mod 2 =? 1) = true |- _ => apply Z.eqb_eq in H end.
  constructor; try assumption.
  - apply odd_prime_b_sound; [lia|assumption..].
  - intros x Hx. apply composite_b_sound; [lia|].
    match goal with H : forallb _ _ = true |- _ =>
      rewrite forallb_forall in H; apply H end.
    apply Zrange_In. lia.
  - apply IH; [lia|assumption..].
Qed.


(** *** The values of the generator *)

Lemma gen_first_next fuel max_count :
  gen_next fuel (generate_primes max_count)
  = Ret (Some 2, mk_gen GenFirst max_count 0 0 (Some 2)).
Proof. reflexivity. Qed.

(** The first [length l] calls, for a list [l] of the first primes. *)
Lemma gen_take_first_primes max_count l :
  max_count < U64 -> first_primes l ->
  Z.of_nat (length l) <= max_count ->
  Forall (fun q => q < U64) l ->
  exists g,
    terminates (fun fuel => gen_take fuel (length l) (generate_primes max_count))
               (map Some l, g)
    /\ ((2 <= length l)%nat ->
        g = gen_yielding max_count (Z.of_nat (length l) - 1) (last l 0)).
Proof.
  intros Hm (l' & -> & Hafter) Hlen Hsafe.
  inversion Hsafe as [|? ? _ Hsafe']; subst.
  destruct l' as [|q l].
  - eexists. split; [exists 0%nat; intros fuel _; reflexivity|].
    cbn [length]. lia.
  - exists (gen_yielding max_count (Z.of_nat (length (2 :: q :: l)) - 1)
                         (last (2 :: q :: l) 0)).
    split; [|reflexivity].
    inversion Hafter as [|? ? ? H2q Hq Hgap Hrest]; subst.
    inversion Hsafe' as [|? ? Hqsafe Hsafe'']; subst.
    destruct (primes_after_head_odd 2 q l ltac:(lia) Hafter) as [Hq3 Hqodd].
    cbn [length] in Hlen.
    exists (scan_fuel (q :: l)). intros fuel Hfuel. cbn [scan_fuel] in Hfuel.
    cbn [gen_take length]. rewrite gen_first_next. cbn [bind snd fst].
    unfold gen_next at 1. unfold gen_resume at 1.
    cbn [gen_at gen_max_count gen_value].
    rewrite (scan_finds_next fuel max_count 1 3 q); try assumption; try lia.
    + cbn [bind snd fst].
      rewrite (gen_take_yielding l fuel max_count 1 q); try assumption; try lia.
      cbn [bind snd fst map gen_value gen_yielding].
      rewrite !last_cons_default. do 3 f_equal. lia.
    + reflexivity.
    + intros x Hx. apply Hgap. lia.
Qed.



(* ------------------------------------------------------------------ *)
(** ** The sieve *)

Example simd_sieve_30 :
  simd_sieve 20 30 = Ret [2; 3; 5; 7; 11; 13; 17; 19; 23; 29].
Proof. vm_compute. reflexivity. Qed.

Example simd_sieve_small :
  map (simd_sieve 20) [0; 1; 2; 3; 4; 9; 10]
  = [Ret []; Ret []; Ret [2]; Ret [2; 3]; Ret [2; 3]; Ret [2; 3; 5; 7];
     Ret [2; 3; 5; 7]].
Proof. vm_compute. reflexivity. Qed.

(** C8, at [simd_sieve(4294967295)], the largest [uint32_t].  Below 2 the
    sieve returns the empty sequence.  At 2^32 - 1 the size
    [(limit + 1) / 2] of [is_composite] is computed as 0, [limit + 1]
    having wrapped, and the first read of the vector,
    [is_composite[(3 - 1) / 2]], is outside it: the call has undefined
    behaviour and returns no list of primes. *)
Theorem simd_sieve_max_limit_reads_outside_vector :
  (forall fuel limit, limit < 2 -> simd_sieve fuel limit = Ret [])
  /\ u32 (4294967295 + 1) / 2 = 0
  /\ vec_get (repeat false (Z.to_nat (u32 (4294967295 + 1) / 2)))
             (u32 (3 - 1) / 2)
     = Undefined
  /\ forall fuel, simd_sieve (S fuel) 4294967295 = Undefined.
Proof.
  split; [|split; [|split]].
  - intros fuel limit H. unfold simd_sieve.
    destruct (Z.ltb_spec limit 2); [reflexivity|lia].
  - reflexivity.
  - reflexivity.
  - intros fuel. reflexivity.
Qed.

(** *** The vector *)

Lemma vec_get_in v k :
  0 <= k < Z.of_nat (length v) -> vec_get v k = Ret (nth (Z.to_nat k) v false).
Proof.
  intros Hk. unfold vec_get.
  destruct (Z.leb_spec 0 k); [|lia].
  destruct (Z.ltb_spec k (Z.of_nat (length v))); [reflexivity|lia].
Qed.

Lemma nth_update {A} (v : list A) n b d : forall m,
  (n < length v)%nat ->
  nth m (firstn n v ++ b :: skipn (S n) v) d = if Nat.eqb m n then b else nth m v d.
Proof.
  revert v. induction n as [|n IH]; intros v m Hn.
  - destruct v as [|a v]; [cbn in Hn; lia|]. cbn [firstn skipn app].
    destruct m; reflexivity.
  - destruct v as [|a v]; [cbn in Hn; lia|]. cbn [firstn skipn app].
    destruct m as [|m]; [reflexivity|]. cbn [nth Nat.eqb].
    apply IH. cbn [length] in Hn. lia.
Qed.

Lemma length_update {A} (v : list A) n b :
  (n < length v)%nat -> length (firstn n v ++ b :: skipn (S n) v) = length v.
Proof.
  intros Hn. rewrite length_app. cbn [length].
  rewrite length_firstn, length_skipn. lia.
Qed.

Lemma vec_set_in v k b :
  0 <= k < Z.of_nat (length v) ->
  exists v',
    vec_set v k b = Ret v' /\ length v' = length v
    /\ forall m, nth m v' false = if Nat.eqb m (Z.to_nat k) then b else nth m v false.
Proof.
  intros Hk. unfold vec_set.
  destruct (Z.leb_spec 0 k); [|lia].
  destruct (Z.ltb_spec k (Z.of_nat (length v))); [|lia]. cbn [andb].
  eexists. split; [reflexivity|]. split.
  - apply length_update. lia.
  - intros m. apply nth_update. lia.
Qed.

(** *** More fuel, same result *)

Lemma mark_loop_mono fuel : forall fuel' limit i j v r,
  (fuel <= fuel')%nat -> mark_loop fuel limit i j v = Ret r ->
  mark_loop fuel' limit i j v = Ret r.
Proof.
  induction fuel as [|fuel IH]; intros fuel' limit i j v r Hle H; [discriminate|].
  destruct fuel' as [|fuel']; [lia|]. cbn [mark_loop] in *.
  destruct (j <=? limit); [|assumption].
  destruct (vec_set v (u32 (j - 1) / 2) true) as [v1| |]; try discriminate.
  cbn [bind] in *. apply IH; [lia|assumption].
Qed.

Lemma sieve_loop_mono fuel : forall fuel' limit i v r,
  (fuel <= fuel')%nat -> sieve_loop fuel limit i v = Ret r ->
  sieve_loop fuel' limit i v = Ret r.
Proof.
  induction fuel as [|fuel IH]; intros fuel' limit i v r Hle H; [discriminate|].
  destruct fuel' as [|fuel']; [lia|]. cbn [sieve_loop] in *.
  destruct (u32 (i * i) <=? limit); [|assumption].
  destruct (vec_get v (u32 (i - 1) / 2)) as [c| |]; try discriminate.
  cbn [bind] in *. destruct (negb c).
  - destruct (mark_loop fuel limit i (u32 (i * i)) v) as [v1| |] eqn:E;
      try discriminate.
    rewrite (mark_loop_mono fuel fuel' _ _ _ _ v1) by (assumption || lia).
    cbn [bind] in *. apply IH; [lia|assumption].
  - cbn [bind] in *. apply IH; [lia|assumption].
Qed.

Lemma collect_loop_mono fuel : forall fuel' limit i v primes r,
  (fuel <= fuel')%nat -> collect_loop fuel limit i v primes = Ret r ->
  collect_loop fuel' limit i v primes = Ret r.
Proof.
  induction fuel as [|fuel IH]; intros fuel' limit i v primes r Hle H; [discriminate|].
  destruct fuel' as [|fuel']; [lia|]. cbn [collect_loop] in *.
  destruct (i <=? limit); [|assumption].
  destruct (vec_get v (u32 (i - 1) / 2)) as [c| |]; try discriminate.
  cbn [bind] in *. apply IH; [lia|assumption].
Qed.

Lemma simd_sieve_mono fuel fuel' limit l :
  (fuel <= fuel')%nat -> simd_sieve fuel limit = Ret l ->
  simd_sieve fuel' limit = Ret l.
Proof.
  intros Hle. unfold simd_sieve. destruct (limit <? 2); [trivial|].
  destruct (sieve_loop fuel limit 3 _) as [v| |] eqn:E; try discriminate.
  rewrite (sieve_loop_mono fuel fuel' _ _ _ v) by assumption.
  cbn [bind]. now apply collect_loop_mono.
Qed.

(** *** The marks *)

Lemma odd_mul a b : a mod 2 = 1 -> b mod 2 = 1 -> (a * b) mod 2 = 1.
Proof. intros Ha Hb. rewrite Zmult_mod, Ha, Hb. reflexivity. Qed.

Lemma even_not_prime x : 2 < x -> x mod 2 = 0 -> ~ prime x.
Proof.
  intros Hx Heven Hp. apply prime_alt in Hp as [_ Hp].
  apply (Hp 2); [lia|]. apply divide_mod_zero; [lia|assumption].
Qed.

Lemma small_divisor_step i x :
  3 <= i -> i mod 2 = 1 ->
  (small_divisor (i + 2) x <-> small_divisor i x \/ ((i | x) /\ i * i <= x)).
Proof.
  intros Hi Hodd. split.
  - intros (d & Hd & Hdo & Hdx & Hdd).
    destruct (Z_lt_ge_dec d i) as [Hlt|Hge].
    + left. exists d. repeat split; try assumption; lia.
    + assert (d = i) by (Z.div_mod_to_equations; lia). subst d. now right.
  - intros [(d & Hd & Hdo & Hdx & Hdd)|[Hix Hii]].
    + exists d. repeat split; try assumption; lia.
    + exists i. repeat split; try assumption; lia.
Qed.

Lemma is_marked_set v j x v' :
  1 <= x -> x mod 2 = 1 -> 1 <= j -> j mod 2 = 1 ->
  (forall m, nth m v' false
             = if Nat.eqb m (Z.to_nat ((j - 1) / 2)) then true else nth m v false) ->
  is_marked v' x = if x =? j then true else is_marked v x.
Proof.
  intros Hx Hxo Hj Hjo Hset. unfold is_marked. rewrite Hset.
  destruct (Z.eqb_spec x j) as [->|Hne]; [now rewrite Nat.eqb_refl|].
  destruct (Nat.eqb_spec (Z.to_nat ((x - 1) / 2)) (Z.to_nat ((j - 1) / 2))) as [E|E];
    [|reflexivity].
  exfalso. apply Hne. apply Z2Nat.inj in E; Z.div_mod_to_equations; lia.
Qed.

Lemma odd_index limit x :
  1 <= x <= limit -> x mod 2 = 1 -> 0 <= (x - 1) / 2 < (limit + 1) / 2.
Proof. intros Hx Hodd. Z.div_mod_to_equations. lia. Qed.

Section Sieve.
Variable limit : Z.
Hypothesis Hlimit : 2 <= limit < SIEVE_SAFE.
Variable i : Z.
Hypothesis Hi : 3 <= i.
Hypothesis Hiodd : i mod 2 = 1.
Hypothesis Hii : i * i <= limit.

Lemma mark_loop_spec fuel : forall m v,
  m mod 2 = 1 -> i <= m -> mark_inv limit i (i * m) v ->
  Z.max 0 (limit - i * m + 1) < Z.of_nat fuel ->
  exists v', mark_loop fuel limit i (i * m) v = Ret v'
             /\ sieve_inv limit (i + 2) v'.
Proof.
  assert (HS : SIEVE_SAFE = 4294836225) by reflexivity.
  assert (HU : U32 = 4294967296) by reflexivity.
  assert (Hismall : i <= 65534) by nia.
  induction fuel as [|fuel IH]; intros m v Hmodd Hm (Hlen & Hmarks) Hfuel; [lia|].
  cbn [mark_loop].
  assert (Hjodd : (i * m) mod 2 = 1) by now apply odd_mul.
  assert (Hjlow : i * i <= i * m) by nia.
  destruct (Z.leb_spec (i * m) limit) as [Hin|Hout].
  - rewrite (u32_small (i * m - 1)) by lia.
    destruct (vec_set_in v ((i * m - 1) / 2) true) as (v1 & Hset & Hlen1 & Hnth).
    { rewrite Hlen. apply odd_index; [lia|assumption]. }
    rewrite Hset. cbn [bind].
    rewrite (u32_small (2 * i)) by lia.
    rewrite (u32_small (i * m + 2 * i)) by lia.
    replace (i * m + 2 * i) with (i * (m + 2)) by ring.
    apply IH; [now apply odd_plus_2|lia| |nia].
    split; [now rewrite Hlen1|].
    intros x Hx Hxo.
    rewrite (is_marked_set v (i * m) x v1) by (assumption || lia).
    destruct (Z.eqb_spec x (i * m)) as [->|Hne].
    + split; [|reflexivity]. intros _. right.
      split; [now exists m; ring|]. split; [assumption|nia].
    + rewrite (Hmarks x Hx Hxo). split.
      * intros [Hsd|(Hdiv & Hsq & Hlt)]; [now left|right].
        split; [assumption|]. split; [assumption|nia].
      * intros [Hsd|(Hdiv & Hsq & Hlt)]; [now left|right].
        split; [assumption|]. split; [assumption|].
        destruct Hdiv as [q Hq]. subst x.
        assert (Hqodd : q mod 2 = 1) by (now apply odd_mul_inv in Hxo).
        assert (Hqm : q < m + 2) by nia.
        assert (Hqne : q <> m) by (intros ->; apply Hne; ring).
        assert (q < m) by (Z.div_mod_to_equations; lia).
        nia.
  - exists v. split; [reflexivity|]. split; [assumption|].
    intros x Hx Hxo. rewrite (Hmarks x Hx Hxo), small_divisor_step by assumption.
    split.
    + intros [Hsd|(Hdiv & Hsq & Hlt)]; [now left|right; now split].
    + intros [Hsd|(Hdiv & Hsq)]; [now left|right].
      split; [assumption|]. split; [assumption|lia].
Qed.

End Sieve.

(** *** The sieve loop *)

Lemma sieve_loop_spec limit fuel : forall i v,
  2 <= limit < SIEVE_SAFE ->
  3 <= i -> i mod 2 = 1 -> (i = 3 \/ (i - 2) * (i - 2) <= limit) ->
  sieve_inv limit i v ->
  limit + 3 + Z.max 0 (limit - i) <= Z.of_nat fuel ->
  exists v' i',
    sieve_loop fuel limit i v = Ret v'
    /\ sieve_inv limit i' v' /\ limit < i' * i' /\ 3 <= i'.
Proof.
  assert (HS : SIEVE_SAFE = 4294836225) by reflexivity.
  assert (HU : U32 = 4294967296) by reflexivity.
  induction fuel as [|fuel IH]; intros i v Hlimit Hi Hiodd Hprev Hinv Hfuel; [lia|].
  cbn [sieve_loop].
  assert (Hismall : i <= 65535).
  { assert (i - 2 < 65535); [|Z.div_mod_to_equations; lia].
    destruct Hprev as [->|Hprev]; [lia|].
    apply square_lt_cancel; lia. }
  rewrite (u32_small (i * i)) by nia.
  destruct (Z.leb_spec (i * i) limit) as [Hpass|Hexit].
  - rewrite (u32_small (i - 1)) by lia.
    destruct Hinv as (Hlen & Hmarks).
    rewrite vec_get_in by (rewrite Hlen; apply odd_index; [nia|assumption]).
    cbn [bind]. fold (is_marked v i).
    rewrite (u32_small (i + 2)) by lia.
    assert (Hnext : exists v1,
      (if negb (is_marked v i) then mark_loop fuel limit i (i * i) v else Ret v)
      = Ret v1 /\ sieve_inv limit (i + 2) v1).
    { destruct (is_marked v i) eqn:Ec; cbn [negb].
      - exists v. split; [reflexivity|]. split; [assumption|].
        intros x Hx Hxo. rewrite (Hmarks x Hx Hxo), small_divisor_step by assumption.
        split; [now left|]. intros [Hsd|(Hdiv & Hsq)]; [assumption|].
        apply (Hmarks i) in Ec; [|nia|assumption].
        destruct Ec as (d & Hd & Hdo & Hdi & Hdd).
        exists d. split; [assumption|]. split; [assumption|].
        split; [now apply Z.divide_trans with i|nia].
      - apply (mark_loop_spec limit Hlimit i Hi Hiodd Hpass fuel i v);
          [assumption|lia| |nia].
        split; [assumption|]. intros x Hx Hxo. rewrite (Hmarks x Hx Hxo).
        split; [now left|]. intros [Hsd|(_ & Hsq & Hlt)]; [assumption|lia]. }
    destruct Hnext as (v1 & Hrun & Hinv1). rewrite Hrun. cbn [bind].
    apply IH; try assumption; [lia|now apply odd_plus_2| |nia].
    right. now replace (i + 2 - 2) with i by lia.
  - exists v, i. repeat split; try apply Hinv; lia.
Qed.

Lemma sieve_final_marks limit i v x :
  sieve_inv limit i v -> limit < i * i -> 3 <= i ->
  3 <= x <= limit -> x mod 2 = 1 ->
  (is_marked v x = true <-> ~ prime x).
Proof.
  intros (_ & Hmarks) Hend Hi Hx Hxo. rewrite (Hmarks x) by (assumption || lia).
  split.
  - intros (d & Hd & Hdo & Hdx & Hdd) Hp.
    apply prime_alt in Hp as [_ Hp]. apply (Hp d); [nia|assumption].
  - intros Hnp.
    destruct (odd_composite_divisor x) as (d & Hd3 & Hdo & Hdd & Hdx);
      [lia|assumption..|].
    exists d. repeat split; try assumption; nia.
Qed.

(** *** The collecting loop *)

Lemma StronglySorted_app_lt_one l a :
  StronglySorted Z.lt l -> Forall (fun x => x < a) l ->
  StronglySorted Z.lt (l ++ [a]).
Proof.
  induction l as [|b l IH]; intros Hs Hall; [repeat constructor|].
  inversion Hs as [|? ? Hs' Hb]; subst. inversion Hall as [|? ? Hba Hall']; subst.
  cbn [app]. constructor; [now apply IH|].
  apply Forall_app. split; [assumption|]. now repeat constructor.
Qed.

Lemma collect_inv_next i primes (is_prime_i : bool) :
  3 <= i -> i mod 2 = 1 -> (is_prime_i = true <-> prime i) ->
  collect_inv i primes ->
  collect_inv (i + 2) (if is_prime_i then primes ++ [i] else primes).
Proof.
  intros Hi Hiodd Hdec (Hsorted & Hmem).
  assert (Heven : ~ prime (i + 1)).
  { apply even_not_prime; [lia|]. Z.div_mod_to_equations. lia. }
  assert (Hcases : forall x, prime x /\ x < i + 2
                             <-> (prime x /\ x < i) \/ (prime x /\ x = i)).
  { intros x. split.
    - intros [Hp Hlt]. destruct (Z_lt_ge_dec x i); [now left|].
      destruct (Z.eq_dec x i); [now right|].
      assert (x = i + 1) by lia. subst x. contradiction.
    - intros [[Hp Hlt]|[Hp ->]]; split; (assumption || lia). }
  destruct is_prime_i.
  - split.
    + apply StronglySorted_app_lt_one; [assumption|].
      apply Forall_forall. intros x Hx. now apply Hmem in Hx.
    + intros x. rewrite in_app_iff, Hcases, Hmem. cbn [In]. split.
      * intros [H|[<-|[]]]; [now left|right]. split; [now apply Hdec|reflexivity].
      * intros [H|[_ ->]]; [now left|right; now left].
  - split; [assumption|]. intros x. rewrite Hcases, Hmem. split; [now left|].
    intros [H|[Hp ->]]; [assumption|]. apply Hdec in Hp. discriminate.
Qed.

Lemma collect_loop_spec limit v i0 fuel : forall i primes,
  2 <= limit < SIEVE_SAFE ->
  sieve_inv limit i0 v -> limit < i0 * i0 -> 3 <= i0 ->
  3 <= i <= limit + 2 -> i mod 2 = 1 -> collect_inv i primes ->
  Z.max 0 (limit - i + 1) < Z.of_nat fuel ->
  exists l,
    collect_loop fuel limit i v primes = Ret l
    /\ StronglySorted Z.lt l
    /\ forall x, In x l <-> (prime x /\ x <= limit).
Proof.
  assert (HS : SIEVE_SAFE = 4294836225) by reflexivity.
  assert (HU : U32 = 4294967296) by reflexivity.
  induction fuel as [|fuel IH];
    intros i primes Hlimit Hinv Hend Hi0 Hi Hiodd Hcollect Hfuel; [lia|].
  cbn [collect_loop]. destruct (Z.leb_spec i limit) as [Hin|Hout].
  - rewrite (u32_small (i - 1)) by lia.
    pose proof Hinv as (Hlen & _).
    rewrite vec_get_in by (rewrite Hlen; apply odd_index; [lia|assumption]).
    cbn [bind]. fold (is_marked v i).
    rewrite (u32_small (i + 2)) by lia.
    apply IH; try assumption; try lia; [now apply odd_plus_2|].
    apply collect_inv_next; try assumption; [lia|].
    pose proof (sieve_final_marks limit i0 v i Hinv Hend Hi0 ltac:(lia) Hiodd) as Hm.
    destruct (is_marked v i); cbn [negb]; split; intros H.
    + discriminate.
    + exfalso. now apply Hm.
    + destruct (prime_dec i) as [|Hnp]; [assumption|].
      apply Hm in Hnp. discriminate.
    + reflexivity.
  - exists primes. split; [reflexivity|]. destruct Hcollect as (Hsorted & Hmem).
    split; [assumption|]. intros x. rewrite Hmem. split.
    + intros [Hp Hlt]. split; [assumption|].
      destruct (Z_le_gt_dec x limit); [assumption|]. exfalso.
      assert (Hx : x = i - 1 /\ 2 < x) by lia. destruct Hx as [-> Hx].
      revert Hp. apply even_not_prime; [assumption|].
      Z.div_mod_to_equations. lia.
    + intros [Hp Hle]. split; [assumption|lia].
Qed.

(** *** The whole function *)

Lemma sieve_inv_initial limit :
  0 <= limit < U32 - 1 ->
  sieve_inv limit 3 (repeat false (Z.to_nat (u32 (limit + 1) / 2))).
Proof.
  intros Hlimit. assert (HU : U32 = 4294967296) by reflexivity.
  rewrite (u32_small (limit + 1)) by lia. split.
  - rewrite repeat_length, Z2Nat.id; [reflexivity|]. apply Z.div_pos; lia.
  - intros x Hx Hxo. unfold is_marked. split.
    + intros H. exfalso. revert H.
      generalize (Z.to_nat ((x - 1) / 2)). generalize (Z.to_nat ((limit + 1) / 2)).
      intros n. induction n as [|n IH]; intros [|m]; cbn; try discriminate.
      apply IH.
    + intros (d & Hd & _). lia.
Qed.

Lemma collect_inv_initial : collect_inv 3 [2].
Proof.
  split; [repeat constructor|]. intros x. cbn [In]. split.
  - intros [<-|[]]. split; [apply prime_two|lia].
  - intros [Hp Hlt]. left. apply prime_alt in Hp as [Hp _]. lia.
Qed.

Lemma simd_sieve_run limit :
  2 <= limit < SIEVE_SAFE ->
  exists l,
    simd_sieve (Z.to_nat (2 * limit + 4)) limit = Ret l
    /\ StronglySorted Z.lt l
    /\ forall x, In x l <-> (prime x /\ x <= limit).
Proof.
  intros Hlimit. assert (HS : SIEVE_SAFE = 4294836225) by reflexivity.
  assert (HU : U32 = 4294967296) by reflexivity.
  unfold simd_sieve. destruct (Z.ltb_spec limit 2); [lia|]. cbn zeta.
  destruct (sieve_loop_spec limit (Z.to_nat (2 * limit + 4)) 3
              (repeat false (Z.to_nat (u32 (limit + 1) / 2))))
    as (v & i & Hrun & Hinv & Hend & Hi);
    [assumption|lia|reflexivity|now left|apply sieve_inv_initial; lia|lia|].
  rewrite Hrun. cbn [bind].
  apply (collect_loop_spec limit v i); try assumption;
    [lia|reflexivity|apply collect_inv_initial|lia].
Qed.

(** X13. For every [limit] below 65535^2 = 4294836225, [simd_sieve(limit)]
    terminates with exactly the prime numbers up to [limit], in strictly
    ascending order; for a limit below 2 with the empty sequence. *)
Theorem simd_sieve_lists_the_primes limit :
  0 <= limit < SIEVE_SAFE ->
  exists l,
    terminates (fun fuel => simd_sieve fuel limit) l
    /\ StronglySorted Z.lt l
    /\ (forall x, In x l <-> (prime x /\ x <= limit))
    /\ (limit < 2 -> l = []).
Proof.
  intros Hlimit. destruct (Z_lt_ge_dec limit 2) as [Hsmall|Hbig].
  - exists []. split; [|split; [constructor|split; [|reflexivity]]].
    + exists 0%nat. intros fuel _. unfold simd_sieve.
      destruct (Z.ltb_spec limit 2); [reflexivity|lia].
    + intros x. cbn [In]. split; [intros []|].
      intros [Hp Hle]. apply prime_alt in Hp as [Hp _]. lia.
  - destruct (simd_sieve_run limit) as (l & Hrun & Hsorted & Hmem); [lia|].
    exists l. split; [|split; [assumption|split; [assumption|lia]]].
    exists (Z.to_nat (2 * limit + 4)). intros fuel Hfuel.
    now apply simd_sieve_mono with (Z.to_nat (2 * limit + 4)).
Qed.

Lemma simd_sieve_lists_the_primes_witness :
  exists l,
    terminates (fun fuel => simd_sieve fuel 30) l
    /\ StronglySorted Z.lt l
    /\ (forall x, In x l <-> (prime x /\ x <= 30))
    /\ (30 < 2 -> l = []).
Proof.
  apply (simd_sieve_lists_the_primes 30). unfold SIEVE_SAFE. lia.
Defined.

(* ------------------------------------------------------------------ *)
(** ** The factorisation *)

Example prime_factors_840 : prime_factors 20 840 = Ret [2; 2; 2; 3; 5; 7].
Proof. vm_compute. reflexivity. Qed.

Example prime_factors_1234567890 :
  prime_factors 2000 1234567890 = Ret [2; 3; 3; 5; 3607; 3803].
Proof. vm_compute. reflexivity. Qed.

Example prime_factors_small :
  map (prime_factors 20) [1; 2; 3; 4; 9; 12; 49]
  = [Ret []; Ret [2]; Ret [3]; Ret [2; 2]; Ret [3; 3]; Ret [2; 2; 3];
     Ret [7; 7]].
Proof. vm_compute. reflexivity. Qed.

(** *** More fuel, same result *)

Lemma halve_loop_mono fuel : forall fuel' n fs r,
  (fuel <= fuel')%nat -> halve_loop fuel n fs = Ret r ->
  halve_loop fuel' n fs = Ret r.
Proof.
  induction fuel as [|fuel IH]; intros fuel' n fs r Hle H; [discriminate|].
  destruct fuel' as [|fuel']; [lia|]. cbn [halve_loop] in *.
  destruct (n mod 2 =? 0); [|assumption]. apply IH; [lia|assumption].
Qed.

Lemma divide_loop_mono fuel : forall fuel' i cn fs r,
  (fuel <= fuel')%nat -> divide_loop fuel i cn fs = Ret r ->
  divide_loop fuel' i cn fs = Ret r.
Proof.
  induction fuel as [|fuel IH]; intros fuel' i cn fs r Hle H; [discriminate|].
  destruct fuel' as [|fuel']; [lia|]. cbn [divide_loop] in *.
  destruct (cn mod i =? 0); [|assumption]. apply IH; [lia|assumption].
Qed.

Lemma odd_loop_mono fuel : forall fuel' i cn fs r,
  (fuel <= fuel')%nat -> odd_loop fuel i cn fs = Ret r ->
  odd_loop fuel' i cn fs = Ret r.
Proof.
  induction fuel as [|fuel IH]; intros fuel' i cn fs r Hle H; [discriminate|].
  destruct fuel' as [|fuel']; [lia|]. cbn [odd_loop] in *.
  destruct (u64 (i * i) <=? cn); [|assumption].
  destruct (divide_loop fuel i cn fs) as [d| |] eqn:E; try discriminate.
  rewrite (divide_loop_mono fuel fuel' i cn fs d) by (assumption || lia).
  cbn [bind] in *. apply IH; [lia|assumption].
Qed.

Lemma prime_factors_mono fuel fuel' n l :
  (fuel <= fuel')%nat -> prime_factors fuel n = Ret l ->
  prime_factors fuel' n = Ret l.
Proof.
  intros Hle. unfold prime_factors.
  destruct (halve_loop fuel n []) as [h| |] eqn:Eh; try discriminate.
  rewrite (halve_loop_mono fuel fuel' n [] h) by assumption. cbn [bind].
  destruct (odd_loop fuel 3 (fst h) (snd h)) as [o| |] eqn:Eo; try discriminate.
  rewrite (odd_loop_mono fuel fuel' 3 (fst h) (snd h) o) by assumption.
  trivial.
Qed.

(** *** Products *)

Lemma product_app l1 l2 : product (l1 ++ l2) = product l1 * product l2.
Proof.
  induction l1 as [|a l1 IH]; cbn [app product fold_right].
  - fold (product l2). lia.
  - fold (product (l1 ++ l2)) (product l1). rewrite IH. lia.
Qed.

Lemma product_repeat a k : product (repeat a k) = a ^ Z.of_nat k.
Proof.
  induction k as [|k IH]; [reflexivity|].
  cbn [repeat product fold_right]. fold (product (repeat a k)).
  rewrite IH, Nat2Z.inj_succ, Z.pow_succ_r by lia. reflexivity.
Qed.

Lemma repeat_snoc {A} (a : A) k : repeat a k ++ [a] = a :: repeat a k.
Proof. induction k as [|k IH]; [reflexivity|]. cbn. now rewrite IH. Qed.

(** *** The two inner loops *)

Lemma halve_loop_spec fuel : forall n fs,
  1 <= n < Z.of_nat fuel ->
  exists m k,
    halve_loop fuel n fs = Ret (m, fs ++ repeat 2 k)
    /\ m mod 2 = 1 /\ 1 <= m <= n /\ n = 2 ^ Z.of_nat k * m.
Proof.
  induction fuel as [|fuel IH]; intros n fs Hn; [lia|].
  cbn [halve_loop]. destruct (Z.eqb_spec (n mod 2) 0) as [E|E].
  - assert (Hhalf : 1 <= n / 2 < n) by (Z.div_mod_to_equations; lia).
    destruct (IH (n / 2) (fs ++ [2])) as (m & k & Hrun & Hodd & Hm & Hprod); [lia|].
    exists m, (S k). rewrite Hrun, <- app_assoc. cbn [app repeat].
    repeat split; try assumption; try lia.
    rewrite Nat2Z.inj_succ, Z.pow_succ_r, <- Z.mul_assoc, <- Hprod by lia.
    Z.div_mod_to_equations; lia.
  - exists n, 0%nat. cbn [repeat]. rewrite app_nil_r.
    repeat split; try lia.
    pose proof (Z.mod_pos_bound n 2 eq_refl). lia.
Qed.

Lemma divide_loop_spec fuel : forall i cn fs,
  2 <= i -> 1 <= cn < Z.of_nat fuel ->
  exists c k,
    divide_loop fuel i cn fs = Ret (c, fs ++ repeat i k)
    /\ cn = i ^ Z.of_nat k * c /\ c mod i <> 0 /\ 1 <= c <= cn.
Proof.
  induction fuel as [|fuel IH]; intros i cn fs Hi Hcn; [lia|].
  cbn [divide_loop]. unfold compare_exchange_loop.
  destruct (Z.eqb_spec (cn mod i) 0) as [E|E].
  - assert (Hq : cn = i * (cn / i)).
    { pose proof (Z.div_mod cn i ltac:(lia)). lia. }
    assert (Hdiv : 1 <= cn / i < cn) by nia.
    destruct (IH i (cn / i) (fs ++ [i])) as (c & k & Hrun & Hprod & Hc & Hle);
      [lia..|].
    exists c, (S k). rewrite Hrun, <- app_assoc. cbn [app repeat].
    repeat split; try assumption; try lia.
    rewrite Nat2Z.inj_succ, Z.pow_succ_r, <- Z.mul_assoc, <- Hprod by lia.
    exact Hq.
  - exists cn, 0%nat. cbn [repeat]. rewrite app_nil_r.
    repeat split; try assumption; lia.
Qed.

(** *** Divisors *)

Lemma no_divisor_below_prime i n :
  1 < n -> 0 <= i -> no_divisor_below i n -> n < i * i -> prime n.
Proof.
  intros Hn Hi Hnd Hsq. destruct (prime_dec n) as [|Hnp]; [assumption|].
  exfalso. destruct (not_prime_divide n Hn Hnp) as (d & Hd & m & Hm).
  assert (Hm1 : 1 < m) by nia.
  destruct (Z_le_gt_dec d m).
  - apply (Hnd d); [nia|now exists m].
  - apply (Hnd m); [nia|]. exists d. lia.
Qed.

Lemma no_divisor_below_divisor i n c :
  no_divisor_below i n -> (c | n) -> no_divisor_below i c.
Proof.
  intros Hnd Hc d Hd Hdc. apply (Hnd d Hd). now apply Z.divide_trans with c.
Qed.

Lemma no_divisor_below_le i n :
  1 < n -> no_divisor_below i n -> i <= n.
Proof.
  intros Hn Hnd. destruct (Z_le_gt_dec i n); [assumption|].
  exfalso. apply (Hnd n); [lia|apply Z.divide_refl].
Qed.

Lemma no_divisor_below_step i c :
  3 <= i -> i mod 2 = 1 -> c mod 2 = 1 -> c mod i <> 0 ->
  no_divisor_below i c -> no_divisor_below (i + 2) c.
Proof.
  intros Hi Hio Hco Hci Hnd d Hd Hdc.
  destruct (Z_lt_ge_dec d i) as [Hlt|Hge]; [apply (Hnd d); [lia|assumption]|].
  destruct (Z.eq_dec d i) as [->|Hne].
  - apply Hci. apply divide_mod_zero; [lia|assumption].
  - assert (d = i + 1) by lia. subst d.
    assert (H2 : (2 | c)).
    { apply Z.divide_trans with (i + 1); [|assumption].
      apply divide_mod_zero; [lia|]. Z.div_mod_to_equations. lia. }
    apply divide_mod_zero in H2; lia.
Qed.

Lemma prime_no_divisor_below i p :
  prime p -> i <= p -> no_divisor_below i p.
Proof.
  intros Hp Hi d Hd. apply prime_alt in Hp as [_ Hp]. apply Hp. lia.
Qed.

(** A divisor of [n] below which nothing divides [n] is prime. *)
Lemma least_divisor_prime i n :
  1 < i -> (i | n) -> no_divisor_below i n -> prime i.
Proof.
  intros Hi Hin Hnd. apply prime_alt. split; [assumption|].
  intros d Hd Hdi. apply (Hnd d Hd). now apply Z.divide_trans with i.
Qed.

Lemma ROOT_MAX_composite : (3 | ROOT_MAX).
Proof. exists 1431655765. reflexivity. Qed.

Lemma not_square y N :
  0 <= y -> y * y = N -> Z.sqrt N * Z.sqrt N <> N -> False.
Proof.
  intros Hy Hsq Hns. apply Hns. rewrite <- Hsq.
  now rewrite Z.sqrt_square by assumption.
Qed.

(** Past a prime [p] of at least [ROOT_MAX]^2, the wrapped square of
    [p + 2] is above 1. *)
Lemma wrapped_square_after_prime p :
  prime p -> ROOT_MAX * ROOT_MAX <= p < U64 ->
  p + 2 < U64 /\ 1 < u64 ((p + 2) * (p + 2)).
Proof.
  intros Hp Hrange. unfold ROOT_MAX in Hrange.
  assert (Hodd : p mod 2 = 1) by (apply prime_odd; [assumption|lia]).
  assert (H1 : p <> U64 - 1) by (intros ->; now apply U64_minus_1_composite).
  assert (H3 : p <> U64 - 3) by (intros ->; now apply U64_minus_3_composite).
  assert (HU : U64 = 18446744073709551616) by reflexivity.
  assert (Hle : p <= U64 - 5) by (Z.div_mod_to_equations; lia).
  split; [lia|].
  set (y := U64 - (p + 2)).
  assert (Hy : 3 <= y <= 8589934589) by (unfold y; lia).
  assert (Hcong : u64 ((p + 2) * (p + 2)) = (y * y) mod U64).
  { unfold u64. replace ((p + 2) * (p + 2)) with (y * y + (U64 - 2 * y) * U64)
      by (unfold y; ring).
    apply Z_mod_plus_full. }
  rewrite Hcong.
  assert (Hyodd : exists z, y = 2 * z + 1).
  { exists (y / 2). unfold y. Z.div_mod_to_equations. lia. }
  destruct Hyodd as [z Hz].
  assert (Hyy : y * y = 4 * (z * z) + 4 * z + 1) by (rewrite Hz; ring).
  pose proof (Z.div_mod (y * y) U64 ltac:(lia)) as Hdm.
  pose proof (Z.mod_pos_bound (y * y) U64 ltac:(lia)) as Hr.
  set (q := y * y / U64) in *. set (r := (y * y) mod U64) in *.
  assert (Hyy_bound : 9 <= y * y < 4 * U64) by nia.
  assert (Hq : 0 <= q <= 3) by nia.
  destruct (Z_le_gt_dec r 1) as [Hr1|]; [|lia]. exfalso.
  assert (r = 1) by lia.
  assert (Hcase : q = 0 \/ q = 1 \/ q = 2 \/ q = 3) by lia.
  destruct Hcase as [Hq0|[Hq1|[Hq2|Hq3]]].
  - lia.
  - apply (not_square y (U64 + 1)); [lia|lia|vm_compute; discriminate].
  - apply (not_square y (2 * U64 + 1)); [lia|lia|vm_compute; discriminate].
  - apply (not_square y (3 * U64 + 1)); [lia|lia|vm_compute; discriminate].
Qed.

(** *** The loop over the odd divisors *)

Lemma StronglySorted_app_le l1 l2 :
  StronglySorted Z.le l1 -> StronglySorted Z.le l2 ->
  (forall x y, In x l1 -> In y l2 -> x <= y) ->
  StronglySorted Z.le (l1 ++ l2).
Proof.
  induction l1 as [|a l1 IH]; intros H1 H2 Hle; [assumption|].
  cbn [app]. inversion H1 as [|? ? Hs Hall]; subst. constructor.
  - apply IH; [assumption..|]. intros x y Hx Hy. apply Hle; [now right|assumption].
  - apply Forall_app. split; [assumption|].
    apply Forall_forall. intros y Hy. apply Hle; [now left|assumption].
Qed.

Lemma StronglySorted_repeat a k : StronglySorted Z.le (repeat a k).
Proof.
  induction k as [|k IH]; [constructor|]. cbn [repeat]. constructor; [assumption|].
  apply Forall_forall. intros x Hx. apply repeat_spec in Hx. lia.
Qed.

Lemma Forall_repeat {A} (P : A -> Prop) a k :
  ((0 < k)%nat -> P a) -> Forall P (repeat a k).
Proof.
  intros H. apply Forall_forall. intros x Hx.
  destruct k as [|k]; [destruct Hx|].
  apply repeat_spec in Hx. subst. apply H. lia.
Qed.

Lemma odd_loop_post_exit i cn :
  cn mod 2 = 1 -> (cn = 1 \/ (prime cn /\ i <= cn)) ->
  odd_loop_post i cn cn [].
Proof.
  intros Hodd Hcn. unfold odd_loop_post. cbn [product fold_right].
  split; [lia|]. split; [constructor|]. split; [constructor|].
  split; [constructor|]. split; [assumption|].
  destruct Hcn as [->|[Hp Hle]]; [now left|right].
  split; [assumption|]. split; [assumption|constructor].
Qed.

Lemma odd_loop_post_step i cn c k left found :
  3 <= i -> cn = i ^ Z.of_nat k * c -> ((0 < k)%nat -> prime i) ->
  odd_loop_post (i + 2) c left found ->
  odd_loop_post i cn left (repeat i k ++ found).
Proof.
  intros Hi Hcn Hpi (Hprod & Hprime & Hsorted & Hge & Hodd & Hleft).
  unfold odd_loop_post. split; [|split; [|split; [|split; [|split]]]].
  - rewrite product_app, product_repeat, <- Z.mul_assoc, Hprod. now symmetry.
  - apply Forall_app. split; [now apply Forall_repeat|assumption].
  - apply StronglySorted_app_le; [apply StronglySorted_repeat|assumption|].
    intros x y Hx Hy. apply repeat_spec in Hx. subst x.
    rewrite Forall_forall in Hge. specialize (Hge y Hy). lia.
  - apply Forall_app. split.
    + apply Forall_repeat. intros _. lia.
    + eapply Forall_impl; [|exact Hge]. cbn. intros x Hx. lia.
  - assumption.
  - destruct Hleft as [->|(Hp & Hle & Hall)]; [now left|right].
    split; [assumption|]. split; [lia|].
    apply Forall_app. split; [|assumption].
    apply Forall_repeat. intros _. lia.
Qed.

Lemma divide_loop_no fuel i cn fs :
  cn mod i <> 0 -> divide_loop (S fuel) i cn fs = Ret (cn, fs).
Proof.
  intros H. cbn [divide_loop].
  destruct (Z.eqb_spec (cn mod i) 0); [contradiction|reflexivity].
Qed.

Lemma divide_loop_self fuel i fs :
  2 <= i -> divide_loop (S (S fuel)) i i fs = Ret (1, fs ++ [i]).
Proof.
  intros Hi. cbn [divide_loop]. unfold compare_exchange_loop.
  rewrite Z_mod_same_full, Z.eqb_refl, Z_div_same_full by lia.
  rewrite Z.mod_1_l by lia. reflexivity.
Qed.

Lemma no_divisor_below_1 i : no_divisor_below i 1.
Proof.
  intros d Hd Hd1. apply Z.divide_1_r in Hd1. lia.
Qed.

Lemma odd_loop_state_intro i cn :
  3 <= i < U64 -> i mod 2 = 1 -> 1 <= cn < U64 -> cn mod 2 = 1 ->
  no_divisor_below i cn ->
  (i <= ROOT_MAX
   \/ (prime cn /\ ROOT_MAX * ROOT_MAX <= cn /\ i <= cn)
   \/ (cn = 1 /\ 1 < u64 (i * i))) ->
  odd_loop_state i cn.
Proof. unfold odd_loop_state. tauto. Qed.

Lemma odd_loop_spec fuel : forall i cn fs,
  odd_loop_state i cn ->
  Z.max 0 (cn - i) + cn + 2 <= Z.of_nat fuel ->
  exists left found,
    odd_loop fuel i cn fs = Ret (left, fs ++ found)
    /\ odd_loop_post i cn left found.
Proof.
  induction fuel as [|fuel IH];
    intros i cn fs (Hi & Hio & Hcn & Hco & Hnd & Hreg) Hfuel; [lia|].
  assert (HU : U64 = 18446744073709551616) by reflexivity.
  assert (HR : ROOT_MAX = 4294967295) by reflexivity.
  cbn [odd_loop]. destruct Hreg as [HA|[(Hp & Hroot & Hle)|(Hone & Hsq)]].
  - (* the square does not wrap *)
    rewrite (u64_small (i * i)) by nia.
    destruct (Z.leb_spec (i * i) cn) as [Hpass|Hexit].
    + destruct (divide_loop_spec fuel i cn fs) as (c & k & Hrun & Hprod & Hc & Hcle);
        [lia|nia|].
      rewrite Hrun. cbn [bind fst snd]. rewrite (u64_small (i + 2)) by lia.
      assert (Hdiv : (c | cn)) by (exists (i ^ Z.of_nat k); exact Hprod).
      assert (Hcodd : c mod 2 = 1).
      { rewrite Hprod in Hco. now apply odd_mul_inv in Hco. }
      assert (Hnd' : no_divisor_below (i + 2) c).
      { apply no_divisor_below_step; try assumption; [lia|].
        now apply no_divisor_below_divisor with cn. }
      assert (Hstate : odd_loop_state (i + 2) c).
      { apply odd_loop_state_intro;
          [lia|now apply odd_plus_2|lia|assumption|assumption|].
        destruct (Z_le_gt_dec (i + 2) ROOT_MAX) as [|Hbig]; [now left|].
          right. left.
          assert (i = ROOT_MAX) by (Z.div_mod_to_equations; lia). subst i.
          assert (k = 0%nat).
          { destruct k as [|k]; [reflexivity|]. exfalso.
            apply (Hnd 3); [lia|].
            apply Z.divide_trans with ROOT_MAX; [apply ROOT_MAX_composite|].
            exists (ROOT_MAX ^ Z.of_nat k * c).
            rewrite Hprod, Nat2Z.inj_succ, Z.pow_succ_r by lia. ring. }
          subst k. change (Z.of_nat 0) with 0 in Hprod.
          rewrite Z.pow_0_r, Z.mul_1_l in Hprod. subst c.
          split; [|split; [lia|nia]].
          apply no_divisor_below_prime with (ROOT_MAX + 2); try assumption; nia. }
      destruct (IH (i + 2) c (fs ++ repeat i k) Hstate) as (left & found & Hrun' & Hpost);
        [nia|].
      exists left, (repeat i k ++ found). rewrite Hrun', app_assoc.
      split; [reflexivity|].
      apply odd_loop_post_step with c; try assumption; [lia|].
      intros Hk. apply least_divisor_prime with cn; [lia| |assumption].
      destruct k as [|k]; [lia|].
      exists (i ^ Z.of_nat k * c).
      rewrite Hprod, Nat2Z.inj_succ, Z.pow_succ_r by lia. ring.
    + exists cn, []. rewrite app_nil_r. split; [reflexivity|].
      apply odd_loop_post_exit; [assumption|].
      destruct (Z.eq_dec cn 1) as [|Hne]; [now left|right].
      split; [apply no_divisor_below_prime with i; try assumption; lia|].
      apply no_divisor_below_le; [lia|assumption].
  - (* past ROOT_MAX: what is left is a prime *)
    destruct (Z.leb_spec (u64 (i * i)) cn) as [Hpass|Hexit].
    + destruct (Z.eq_dec i cn) as [->|Hne].
      * destruct fuel as [|[|fuel]]; [nia..|].
        rewrite divide_loop_self by lia. cbn [bind fst snd].
        destruct (wrapped_square_after_prime cn Hp) as [Hnext Hwrap]; [lia|].
        rewrite (u64_small (cn + 2)) by lia.
        destruct (IH (cn + 2) 1 (fs ++ [cn])) as (left & found & Hrun' & Hpost).
        { apply odd_loop_state_intro;
            [lia|now apply odd_plus_2|lia|reflexivity|apply no_divisor_below_1|].
          right. right. split; [reflexivity|assumption]. }
        { nia. }
        exists left, (repeat cn 1 ++ found). cbn [repeat app].
        rewrite Hrun', <- app_assoc. split; [reflexivity|].
        change (cn :: found) with (repeat cn 1 ++ found).
        apply odd_loop_post_step with 1; try assumption; try lia.
        all: try (intros _; assumption).
        all: try (change (Z.of_nat 1) with 1; rewrite Z.pow_1_r; lia).
      * assert (Hlt : i < cn) by lia.
        assert (Hmod : cn mod i <> 0).
        { intros E. apply prime_alt in Hp as [_ Hp']. apply (Hp' i); [lia|].
          apply divide_mod_zero; [lia|assumption]. }
        destruct fuel as [|fuel]; [nia|].
        rewrite divide_loop_no by assumption. cbn [bind fst snd].
        assert (Hstep : i + 2 <= cn) by (apply odd_lt_step; assumption).
        rewrite (u64_small (i + 2)) by lia.
        destruct (IH (i + 2) cn fs) as (left & found & Hrun' & Hpost).
        { apply odd_loop_state_intro;
            [lia|now apply odd_plus_2|lia|assumption
            |now apply prime_no_divisor_below|].
          right. left. split; [assumption|]. split; assumption. }
        { lia. }
        exists left, found. split; [assumption|].
        change found with (repeat i 0 ++ found).
        apply odd_loop_post_step with cn; try assumption; try lia.
        all: try (change (Z.of_nat 0) with 0; rewrite Z.pow_0_r; lia).
    + exists cn, []. rewrite app_nil_r. split; [reflexivity|].
      apply odd_loop_post_exit; [assumption|]. right. now split.
  - (* the prime divided out: 1 is left *)
    subst cn. destruct (Z.leb_spec (u64 (i * i)) 1); [lia|].
    exists 1, []. rewrite app_nil_r. split; [reflexivity|].
    apply odd_loop_post_exit; [reflexivity|now left].
Qed.

(** *** The whole function *)

Lemma product_primes l : Forall prime l -> 1 <= product l /\ (product l = 1 -> l = []).
Proof.
  induction 1 as [|a l Ha Hl [IH1 IH2]]; [split; [cbn; lia|reflexivity]|].
  cbn [product fold_right]. fold (product l).
  apply prime_alt in Ha as [Ha _]. split; [nia|]. intros H. nia.
Qed.

Lemma prime_factors_run n :
  1 <= n < U64 ->
  exists l,
    prime_factors (Z.to_nat (2 * n + 3)) n = Ret l
    /\ StronglySorted Z.le l /\ Forall prime l /\ product l = n.
Proof.
  intros Hn. set (fuel := Z.to_nat (2 * n + 3)).
  destruct (halve_loop_spec fuel n []) as (m & k & Hhalve & Hmodd & Hm & Hprod);
    [lia|].
  cbn [app] in Hhalve.
  assert (Hstate : odd_loop_state 3 m).
  { apply odd_loop_state_intro;
      [unfold U64; lia|reflexivity|lia|assumption| |left; unfold ROOT_MAX; lia].
    intros d Hd Hdm. assert (d = 2) by lia. subst d.
    apply divide_mod_zero in Hdm; lia. }
  destruct (odd_loop_spec fuel 3 m (repeat 2 k) Hstate)
    as (left & found & Hodd & Hpost); [lia|].
  destruct Hpost as (Hp1 & Hp2 & Hp3 & Hp4 & Hp5 & Hp6).
  assert (Hsorted : StronglySorted Z.le (repeat 2 k ++ found)).
  { apply StronglySorted_app_le; [apply StronglySorted_repeat|assumption|].
    intros x y Hx Hy. apply repeat_spec in Hx. subst x.
    rewrite Forall_forall in Hp4. specialize (Hp4 y Hy). lia. }
  assert (Hprimes : Forall prime (repeat 2 k ++ found)).
  { apply Forall_app. split; [|assumption].
    apply Forall_repeat. intros _. apply prime_two. }
  unfold prime_factors. rewrite Hhalve. cbn [bind fst snd].
  rewrite Hodd. cbn [bind fst snd].
  destruct Hp6 as [->|(Hleft & H3 & Hall)].
  - change (1 >? 2) with false. cbn iota.
    exists (repeat 2 k ++ found). split; [reflexivity|].
    split; [assumption|]. split; [assumption|].
    rewrite product_app, product_repeat. rewrite Z.mul_1_r in Hp1.
    rewrite Hp1. now symmetry.
  - destruct (Z.gtb_spec left 2) as [_|Hsmall]; [|lia].
    exists ((repeat 2 k ++ found) ++ [left]). split; [reflexivity|].
    split; [|split].
    + apply StronglySorted_app_le; [assumption|repeat constructor|].
      intros x y Hx [<-|[]]. apply in_app_or in Hx as [Hx|Hx].
      * apply repeat_spec in Hx. lia.
      * rewrite Forall_forall in Hall. now apply Hall.
    + apply Forall_app. split; [assumption|].
      constructor; [assumption|constructor].
    + rewrite !product_app, product_repeat. cbn [product fold_right].
      rewrite Z.mul_1_r, <- Z.mul_assoc, Hp1. now symmetry.
Qed.

(** X12. For every [n] from 1 to 2^64 - 1, [prime_factors<uint64_t>(n)]
    terminates with a non-decreasing sequence of prime numbers whose
    product is [n]: the empty sequence for 1.  That holds also for the
    primes of at least [(2^32 - 1)^2], where the square [i * i] of the loop
    wraps. *)
Theorem prime_factors_factorises n :
  1 <= n < U64 ->
  exists l,
    terminates (fun fuel => prime_factors fuel n) l
    /\ Sorted Z.le l /\ Forall prime l /\ product l = n
    /\ (n = 1 -> l = []).
Proof.
  intros Hn.
  destruct (prime_factors_run n Hn) as (l & Hrun & Hsorted & Hprimes & Hprod).
  exists l. split; [|split; [|split; [|split]]]; try assumption.
  - exists (Z.to_nat (2 * n + 3)). intros fuel Hfuel.
    now apply prime_factors_mono with (Z.to_nat (2 * n + 3)).
  - now apply StronglySorted_Sorted.
  - intros ->. now apply product_primes.
Qed.

Lemma prime_factors_factorises_witness :
  exists l,
    terminates (fun fuel => prime_factors fuel 840) l
    /\ Sorted Z.le l /\ Forall prime l /\ product l = 840
    /\ (840 = 1 -> l = []).
Proof.
  apply (prime_factors_factorises 840). unfold U64. lia.
Defined.

(* ------------------------------------------------------------------ *)
(** ** [gcd], [lcm], [modpow] *)

Example gcd_56_98 : gcd 10 56 98 = Ret 14.
Proof. reflexivity. Qed.

Example lcm_12_18 : lcm 10 12 18 = Ret 36.
Proof. reflexivity. Qed.

Example modpow_4_13_497 : modpow 10 4 13 497 = Ret 445.
Proof. reflexivity. Qed.

Lemma gcd_mono fuel : forall fuel' a b r,
  (fuel <= fuel')%nat -> gcd fuel a b = Ret r -> gcd fuel' a b = Ret r.
Proof.
  induction fuel as [|fuel IH]; intros fuel' a b r Hle H; [discriminate|].
  destruct fuel' as [|fuel']; [lia|]. cbn [gcd] in *.
  destruct (negb (b =? 0)); [|assumption].
  apply IH; [lia|assumption].
Qed.

Lemma gcd_runs fuel : forall a b,
  0 <= a -> 0 <= b < Z.of_nat fuel -> gcd fuel a b = Ret (Z.gcd a b).
Proof.
  induction fuel as [|fuel IH]; intros a b Ha Hb; [lia|].
  cbn [gcd]. destruct (Z.eqb_spec b 0) as [->|Hne]; cbn [negb].
  - rewrite Z.gcd_0_r, Z.abs_eq by assumption. reflexivity.
  - pose proof (Z.mod_pos_bound a b ltac:(lia)).
    rewrite IH by lia.
    rewrite (Z.gcd_comm b), Z.gcd_mod by assumption. now rewrite Z.gcd_comm.
Qed.

(** X3. [gcd] terminates on every pair of [uint64_t] with their greatest common
    divisor: a common divisor that every common divisor divides.  In
    particular [gcd(a, 0) = a] and [gcd(0, b) = b]. *)
Theorem gcd_greatest_common_divisor a b :
  is_u64 a -> is_u64 b ->
  exists g,
    terminates (fun fuel => gcd fuel a b) g
    /\ 0 <= g /\ (g | a) /\ (g | b)
    /\ (forall d, (d | a) -> (d | b) -> (d | g))
    /\ (b = 0 -> g = a) /\ (a = 0 -> g = b).
Proof.
  intros [Ha _] [Hb _]. exists (Z.gcd a b). split.
  - exists (S (Z.to_nat b)). intros fuel Hfuel. apply gcd_runs; lia.
  - split; [apply Z.gcd_nonneg|].
    split; [apply Z.gcd_divide_l|]. split; [apply Z.gcd_divide_r|].
    split; [intros d; apply Z.gcd_greatest|]. split.
    + intros ->. now rewrite Z.gcd_0_r, Z.abs_eq.
    + intros ->. now rewrite Z.gcd_0_l, Z.abs_eq.
Qed.

Lemma gcd_greatest_common_divisor_witness :
  exists g,
    terminates (fun fuel => gcd fuel 56 98) g
    /\ 0 <= g /\ (g | 56) /\ (g | 98)
    /\ (forall d, (d | 56) -> (d | 98) -> (d | g))
    /\ (98 = 0 -> g = 56) /\ (56 = 0 -> g = 98).
Proof.
  apply (gcd_greatest_common_divisor 56 98); unfold is_u64, U64; lia.
Defined.

Lemma lcm_exact a b :
  0 <= a -> 0 <= b -> Z.gcd a b <> 0 -> a / Z.gcd a b * b = Z.lcm a b.
Proof.
  intros Ha Hb Hg. unfold Z.lcm.
  assert (Hq : 0 <= b / Z.gcd a b).
  { apply Z.div_pos; [assumption|]. pose proof (Z.gcd_nonneg a b). lia. }
  rewrite Z.abs_eq by (apply Z.mul_nonneg_nonneg; assumption).
  rewrite <- (Z.divide_div_mul_exact b (Z.gcd a b) a Hg (Z.gcd_divide_r a b)).
  rewrite (Z.mul_comm (a / Z.gcd a b)).
  rewrite <- (Z.divide_div_mul_exact a (Z.gcd a b) b Hg (Z.gcd_divide_l a b)).
  now rewrite Z.mul_comm.
Qed.

(** X4. [lcm] of two [uint64_t] that are not both zero is their least common
    multiple, reduced modulo 2^64 when it does not fit; [lcm(0, 0)] divides
    by the zero [gcd]: undefined behaviour. *)
Theorem lcm_least_common_multiple a b :
  is_u64 a -> is_u64 b ->
  (a <> 0 \/ b <> 0 ->
   terminates (fun fuel => lcm fuel a b) (Z.lcm a b mod U64)
   /\ (Z.lcm a b < U64 -> terminates (fun fuel => lcm fuel a b) (Z.lcm a b)))
  /\ (a = 0 -> b = 0 -> forall fuel, lcm (S fuel) a b = Undefined).
Proof.
  intros [Ha Ha'] [Hb Hb']. split.
  - intros Hnz.
    assert (Hg : Z.gcd a b <> 0).
    { intros E. apply Z.gcd_eq_0 in E. lia. }
    assert (Hrun : terminates (fun fuel => lcm fuel a b) (Z.lcm a b mod U64)).
    { exists (S (Z.to_nat b)). intros fuel Hfuel. unfold lcm.
      rewrite gcd_runs by lia. cbn [bind].
      destruct (Z.eqb_spec (Z.gcd a b) 0); [contradiction|].
      unfold u64. now rewrite lcm_exact. }
    split; [assumption|]. intros Hfit.
    rewrite Z.mod_small in Hrun; [assumption|].
    split; [apply Z.lcm_nonneg|assumption].
  - intros -> -> fuel. reflexivity.
Qed.

Lemma lcm_least_common_multiple_witness :
  (12 <> 0 \/ 18 <> 0 ->
   terminates (fun fuel => lcm fuel 12 18) (Z.lcm 12 18 mod U64)
   /\ (Z.lcm 12 18 < U64 -> terminates (fun fuel => lcm fuel 12 18) (Z.lcm 12 18)))
  /\ (12 = 0 -> 18 = 0 -> forall fuel, lcm (S fuel) 12 18 = Undefined).
Proof.
  apply (lcm_least_common_multiple 12 18); unfold is_u64, U64; lia.
Defined.

Lemma land_1_mod_2 e : Z.land e 1 = e mod 2.
Proof. change 1 with (Z.ones 1). now rewrite Z.land_ones by lia. Qed.

Lemma modpow_loop_S fuel result base exp modulus :
  modpow_loop (S fuel) result base exp modulus
  = if exp >? 0 then
      modpow_loop fuel
        (if negb (Z.land exp 1 =? 0) then u64 (result * base) mod modulus
         else result)
        (u64 (base * base) mod modulus) (Z.shiftr exp 1) modulus
    else Ret result.
Proof. reflexivity. Qed.

Lemma modpow_loop_runs fuel : forall result base exp modulus,
  2 <= modulus <= U32 ->
  0 <= result < modulus -> 0 <= base < modulus ->
  0 <= exp < 2 ^ Z.of_nat fuel ->
  modpow_loop (S fuel) result base exp modulus
  = Ret ((result * base ^ exp) mod modulus).
Proof.
  induction fuel as [|fuel IH]; intros result base exp m Hm Hr Hb He.
  - assert (exp = 0) by (cbn in He; lia). subst exp. cbn.
    rewrite Z.mul_1_r, Z.mod_small by lia. reflexivity.
  - rewrite modpow_loop_S.
    destruct (Z.gtb_spec exp 0) as [Hpos|Hzero].
    + assert (Hsmall : forall x y, 0 <= x < m -> 0 <= y < m -> u64 (x * y) = x * y).
      { intros x y Hx Hy. apply u64_small. unfold U32, U64 in *. nia. }
      rewrite !Hsmall by assumption.
      rewrite Z.shiftr_div_pow2 by lia. change (2 ^ 1) with 2.
      rewrite land_1_mod_2.
      assert (Hexp : exp = 2 * (exp / 2) + exp mod 2) by (apply Z.div_mod; lia).
      assert (Hhalf : 0 <= exp / 2 < 2 ^ Z.of_nat fuel).
      { rewrite Nat2Z.inj_succ, Z.pow_succ_r in He by lia.
        split; [apply Z.div_pos; lia|]. apply Z.div_lt_upper_bound; lia. }
      pose proof (Z.mod_pos_bound exp 2 eq_refl) as Hbit.
      pose proof (Z.mod_pos_bound (base * base) m ltac:(lia)) as Hbb.
      pose proof (Z.mod_pos_bound (result * base) m ltac:(lia)) as Hrb.
      assert (Hsq : ((base * base) mod m) ^ (exp / 2) mod m
                    = (base * base) ^ (exp / 2) mod m).
      { apply Z.mod_pow_l. }
      assert (Hpow : base ^ exp = (base * base) ^ (exp / 2) * base ^ (exp mod 2)).
      { rewrite Hexp at 1. rewrite Z.pow_add_r, Z.pow_mul_r by lia.
        now rewrite Z.pow_2_r. }
      destruct (Z.eqb_spec (exp mod 2) 0) as [E|E]; cbn [negb].
      * rewrite IH by (assumption || lia).
        rewrite Hpow, E, Z.pow_0_r, Z.mul_1_r.
        rewrite (Z.mul_mod result (_ ^ _)), Hsq, <- Z.mul_mod by lia.
        reflexivity.
      * assert (E1 : exp mod 2 = 1) by lia.
        rewrite IH by (assumption || lia).
        rewrite Hpow, E1, Z.pow_1_r.
        rewrite (Z.mul_mod (_ mod m) (_ ^ _)), Hsq, Z.mod_mod by lia.
        rewrite <- Z.mul_mod by lia. do 2 f_equal. ring.
    + assert (exp = 0) by lia. subst exp.
      rewrite Z.pow_0_r, Z.mul_1_r, Z.mod_small by lia. reflexivity.
Qed.

(** X5. With a modulus of at most 2^32, so that no product wraps, [modpow] of
    [uint64_t] [base] and [exp] terminates with [base ^ exp mod modulus]
    (with [0 ^ 0 = 1]); with a modulus of zero the first reduction
    [base % modulus] divides by zero: undefined behaviour. *)
Theorem modpow_is_power_mod base exp modulus :
  is_u64 base -> is_u64 exp -> 1 <= modulus <= U32 ->
  terminates (fun fuel => modpow fuel base exp modulus)
             (base ^ exp mod modulus)
  /\ (forall fuel, modpow fuel base exp 0 = Undefined).
Proof.
  intros [Hb _] [He He'] Hm. split; [|reflexivity].
  exists 65%nat. intros fuel Hfuel. unfold modpow.
  destruct (Z.eqb_spec modulus 1) as [->|H1]; [now rewrite Z.mod_1_r|].
  destruct (Z.eqb_spec modulus 0) as [->|H0]; [lia|].
  destruct fuel as [|fuel]; [lia|].
  pose proof (Z.mod_pos_bound base modulus ltac:(lia)) as Hbm.
  rewrite modpow_loop_runs; try lia.
  - rewrite Z.mul_1_l. f_equal. apply Z.mod_pow_l.
  - split; [lia|]. apply Z.lt_le_trans with (2 ^ 64); [exact He'|].
    apply Z.pow_le_mono_r; lia.
Qed.

Lemma modpow_is_power_mod_witness :
  terminates (fun fuel => modpow fuel 4 13 497) (4 ^ 13 mod 497)
  /\ (forall fuel, modpow fuel 4 13 0 = Undefined).
Proof.
  apply (modpow_is_power_mod 4 13 497); unfold is_u64, U64, U32; lia.
Defined.

(** Above 2^32 a product can wrap: here the square of the base does. *)
Example modpow_wraps_above_2_32 :
  modpow 3 4294967296 2 4294967297 = Ret 0
  /\ 4294967296 ^ 2 mod 4294967297 = 1.
Proof. split; reflexivity. Qed.

(* ------------------------------------------------------------------ *)
(** ** [is_prime] decides primality *)

Lemma WHEEL_SAFE_root i :
  i mod 6 = 5 -> 5 <= i -> (i = 5 \/ (i - 6) * (i - 6) < WHEEL_SAFE) ->
  i <= 4294967291 /\ 0 <= i * i < U64.
Proof.
  intros Hmod H5 Hi.
  assert (Hlt : i - 6 < 4294967291).
  { destruct Hi as [->|Hi]; [lia|].
    apply square_lt_cancel; [lia|]. exact Hi. }
  assert (i <= 4294967291) by (Z.div_mod_to_equations; lia).
  split; [assumption|]. unfold U64. nia.
Qed.

Lemma is_prime_loop_prime fuel : forall n i,
  prime n -> n < WHEEL_SAFE ->
  i mod 6 = 5 -> 5 <= i -> (i = 5 \/ (i - 6) * (i - 6) <= n) ->
  n - i < Z.of_nat fuel -> (0 < fuel)%nat ->
  is_prime_loop fuel n i = Some true.
Proof.
  induction fuel as [|fuel IH]; intros n i Hp Hsafe Hmod H5 Hinv Hfuel Hpos; [lia|].
  cbn [is_prime_loop].
  destruct (WHEEL_SAFE_root i Hmod H5) as [Hi Hsq]; [lia|].
  rewrite (u64_small (i * i)) by assumption.
  destruct (Z.leb_spec (i * i) n) as [Hle|]; [|reflexivity].
  assert (Hlt : i + 2 < n) by nia.
  rewrite (u64_small (i + 2)) by (unfold U64; lia).
  apply prime_alt in Hp as Hp'. destruct Hp' as [_ Hnd].
  destruct (Z.eqb_spec (n mod i) 0) as [E|E].
  { exfalso. apply (Hnd i); [lia|]. apply divide_mod_zero; [lia|assumption]. }
  destruct (Z.eqb_spec (n mod (i + 2)) 0) as [E2|E2].
  { exfalso. apply (Hnd (i + 2)); [lia|]. apply divide_mod_zero; [lia|assumption]. }
  cbn [orb].
  rewrite (u64_small (i + 6)) by (unfold U64; lia).
  apply IH; try assumption; try lia.
  all: try (rewrite <- Zplus_mod_idemp_l, Hmod; reflexivity).
Qed.

Lemma is_prime_loop_divisor fuel : forall n i d,
  n < U64 -> 5 <= i <= d -> i mod 6 = 5 -> (d mod 6 = 5 \/ d mod 6 = 1) ->
  d * d <= n -> (d | n) -> d - i < 6 * Z.of_nat fuel ->
  is_prime_loop fuel n i = Some false.
Proof.
  induction fuel as [|fuel IH]; intros n i d Hn Hi Hmod Hd Hdd Hdiv Hfuel; [lia|].
  cbn [is_prime_loop].
  assert (Hii : i * i <= d * d) by (apply square_le_mono; lia).
  assert (Hdn : d < U64) by nia.
  rewrite (u64_small (i * i)) by nia.
  destruct (Z.leb_spec (i * i) n); [|lia].
  rewrite (u64_small (i + 2)) by (Z.div_mod_to_equations; lia).
  destruct (Z.eqb_spec (n mod i) 0) as [E|E]; [reflexivity|].
  destruct (Z.eqb_spec (n mod (i + 2)) 0) as [E2|E2]; [reflexivity|].
  cbn [orb].
  assert (Hne : i <> d).
  { intros ->. apply E. apply divide_mod_zero; [lia|assumption]. }
  assert (Hne2 : i + 2 <> d).
  { intros <-. apply E2. apply divide_mod_zero; [lia|assumption]. }
  assert (Hstep : i + 6 <= d) by (Z.div_mod_to_equations; lia).
  rewrite (u64_small (i + 6)) by lia.
  apply IH with d; try assumption; try lia.
  all: try (rewrite <- Zplus_mod_idemp_l, Hmod; reflexivity).
Qed.

(** A number above 3 with no factor 2 or 3 that is not prime has a
    divisor of the form 6k - 1 or 6k + 1 whose square does not exceed it. *)
Lemma wheel_composite_divisor n :
  3 < n -> n mod 2 <> 0 -> n mod 3 <> 0 -> ~ prime n ->
  exists d, 5 <= d /\ (d mod 6 = 5 \/ d mod 6 = 1) /\ d * d <= n /\ (d | n).
Proof.
  intros H3 Hn2 Hn3 Hnp.
  destruct (not_prime_divide n ltac:(lia) Hnp) as (d0 & Hd0 & m & Hm).
  assert (Hcoprime : forall d, 1 < d -> (d | n) ->
            5 <= d /\ (d mod 6 = 5 \/ d mod 6 = 1)).
  { intros d Hd Hdn.
    assert (Hd2 : d mod 2 <> 0).
    { intros E. apply Hn2. apply divide_mod_zero; [lia|].
      apply Z.divide_trans with d; [|assumption].
      apply divide_mod_zero; [lia|assumption]. }
    assert (Hd3 : d mod 3 <> 0).
    { intros E. apply Hn3. apply divide_mod_zero; [lia|].
      apply Z.divide_trans with d; [|assumption].
      apply divide_mod_zero; [lia|assumption]. }
    Z.div_mod_to_equations. lia. }
  assert (Hm1 : 1 < m) by nia.
  destruct (Z_le_gt_dec d0 m).
  - exists d0. destruct (Hcoprime d0) as [H5 Hmod]; [lia|now exists m|].
    repeat split; try assumption; [nia|now exists m].
  - exists m. destruct (Hcoprime m) as [H5 Hmod]; [lia|exists d0; lia|].
    repeat split; try assumption; [nia|exists d0; lia].
Qed.

Lemma is_prime_fuel_decides n :
  0 <= n < WHEEL_SAFE ->
  is_prime_fuel (S (Z.to_nat n)) n = Some (if prime_dec n then true else false).
Proof.
  intros Hn. unfold is_prime_fuel.
  destruct (Z.leb_spec n 1).
  { destruct (prime_dec n) as [Hp|]; [|reflexivity].
    apply prime_alt in Hp as [Hp1 _]. lia. }
  destruct (Z.leb_spec n 3).
  { destruct (prime_dec n) as [|Hnp]; [reflexivity|].
    exfalso. apply Hnp.
    assert (Hcase : n = 2 \/ n = 3) by lia.
    destruct Hcase as [-> | ->]; apply prime_alt; [apply Z.prime_2|apply Z.prime_3]. }
  destruct (Z.eqb_spec (n mod 2) 0) as [E2|E2].
  { cbn [orb]. destruct (prime_dec n) as [Hp|]; [|reflexivity].
    apply prime_alt in Hp as [_ Hnd]. exfalso. apply (Hnd 2); [lia|].
    apply divide_mod_zero; [lia|assumption]. }
  destruct (Z.eqb_spec (n mod 3) 0) as [E3|E3].
  { cbn [orb]. destruct (prime_dec n) as [Hp|]; [|reflexivity].
    apply prime_alt in Hp as [_ Hnd]. exfalso. apply (Hnd 3); [lia|].
    apply divide_mod_zero; [lia|assumption]. }
  cbn [orb]. destruct (prime_dec n) as [Hp|Hnp].
  - apply is_prime_loop_prime; auto; try lia.
  - destruct (wheel_composite_divisor n) as (d & H5 & Hmod & Hdd & Hdiv);
      [lia|assumption..|].
    apply is_prime_loop_divisor with d; auto; try lia.
    + unfold WHEEL_SAFE, U64 in *. lia.
    + nia.
Qed.

Lemma is_prime_iff_prime n :
  0 <= n < WHEEL_SAFE -> (is_prime n = true <-> prime n).
Proof.
  intros Hn.
  assert (Hu : is_u64 n) by (unfold is_u64, WHEEL_SAFE, U64 in *; lia).
  rewrite (is_prime_fuel_sound _ _ _ Hu (is_prime_fuel_decides n Hn)).
  destruct (prime_dec n); split; auto; discriminate.
Qed.

(** X1. For every [n] below [WHEEL_SAFE = (2^32 - 5)^2], [is_prime(n)] is true
    exactly when [n] is a prime number: when [n] is above 1 and no number
    strictly between 1 and [n] divides it. *)
Theorem is_prime_decides_primality n :
  0 <= n < WHEEL_SAFE ->
  (is_prime n = true <-> prime n)
  /\ (is_prime n = true <-> 1 < n /\ forall d, 1 < d < n -> ~ (d | n)).
Proof.
  intros Hn. split; [now apply is_prime_iff_prime|].
  rewrite (is_prime_iff_prime n Hn). symmetry. apply prime_alt.
Qed.

Lemma is_prime_decides_primality_witness :
  (is_prime 1000003 = true <-> prime 1000003)
  /\ (is_prime 1000003 = true
      <-> 1 < 1000003 /\ forall d, 1 < d < 1000003 -> ~ (d | 1000003)).
Proof.
  apply (is_prime_decides_primality 1000003). unfold WHEEL_SAFE. lia.
Defined.

(* ------------------------------------------------------------------ *)
(** ** More on the counter *)

Lemma prime_count_filter len : forall a,
  prime_count a len = Z.of_nat (length (filter is_prime (Zrange a len))).
Proof.
  unfold Zrange.
  induction len as [|len IH]; intros a; [reflexivity|].
  cbn [prime_count seq map filter]. rewrite Z.add_0_r.
  rewrite <- seq_shift, map_map, IH.
  assert (Hshift : map (fun i => a + 1 + Z.of_nat i) (seq 0 len)
                   = map (fun i => a + Z.of_nat (S i)) (seq 0 len)).
  { apply map_ext. intros i. lia. }
  rewrite Hshift. destruct (is_prime a); cbn [length]; lia.
Qed.

Lemma Zrange_bounds a n x : In x (Zrange a n) -> a <= x < a + Z.of_nat n.
Proof.
  unfold Zrange. rewrite in_map_iff. intros (i & <- & Hi).
  apply in_seq in Hi. lia.
Qed.

(** X6. Where the partition arithmetic does not wrap ([partition_safe]) and
    [end] is below the largest [uint64_t], [count_primes] returns, for every
    thread count and every order in which the threads reach their
    [fetch_add], the number of [n] in [start, end] that [is_prime] accepts;
    and when [end] is below [WHEEL_SAFE] these are exactly the primes of the
    range. *)
Theorem count_primes_counts_the_primes completion start end_ thread_count :
  (forall cs, Permutation cs (completion cs)) ->
  partition_safe start end_ thread_count -> end_ + 1 < U64 ->
  let range := Zrange start (Z.to_nat (end_ - start + 1)) in
  terminates
    (fun fuel => count_primes_in_order completion fuel start end_ thread_count)
    (Z.of_nat (length (filter is_prime range)))
  /\ (forall n, In n range <-> start <= n <= end_)
  /\ (end_ < WHEEL_SAFE ->
      forall n, In n range -> (is_prime n = true <-> prime n)).
Proof.
  intros Hperm Hsafe Hend range. split; [|split].
  - unfold range. rewrite <- prime_count_filter.
    now apply count_primes_counts.
  - intros n. destruct Hsafe as (Hse & _). split.
    + intros H. apply Zrange_bounds in H. lia.
    + intros H. apply Zrange_In. lia.
  - intros Hw n Hn. apply Zrange_bounds in Hn.
    destruct Hsafe as (Hse & _). apply is_prime_iff_prime. lia.
Qed.

Lemma count_primes_counts_the_primes_witness :
  let range := Zrange 1 (Z.to_nat (100 - 1 + 1)) in
  terminates
    (fun fuel => count_primes_in_order (@rev chunk) fuel 1 100 4)
    (Z.of_nat (length (filter is_prime range)))
  /\ (forall n, In n range <-> 1 <= n <= 100)
  /\ (100 < WHEEL_SAFE ->
      forall n, In n range -> (is_prime n = true <-> prime n)).
Proof.
  apply (count_primes_counts_the_primes (@rev chunk) 1 100 4).
  - intros cs. apply Permutation_rev.
  - unfold partition_safe, U64, U32. lia.
  - unfold U64. lia.
Defined.

(** X7. Where [partition_safe] holds, the chunks of [count_primes] are as many
    as the threads, pairwise disjoint, cover exactly [start, end], and have
    [(end - start + 1) / thread_count] numbers each but the last, which has
    the remainder of the division in addition. *)
Theorem chunks_partition_the_range start end_ thread_count :
  partition_safe start end_ thread_count ->
  exists cs,
    chunks start end_ thread_count = Ret cs
    /\ Z.of_nat (length cs) = thread_count
    /\ ForallOrdPairs disjoint cs
    /\ (forall n, start <= n <= end_ <-> Exists (in_chunk n) cs)
    /\ (forall i, (S i < length cs)%nat ->
          chunk_length (nth i cs (0, 0)) = (end_ - start + 1) / thread_count)
    /\ chunk_length (last cs (0, 0))
       = (end_ - start + 1) / thread_count + (end_ - start + 1) mod thread_count.
Proof. exact (chunks_partition start end_ thread_count). Qed.

Lemma chunks_partition_the_range_witness :
  exists cs,
    chunks 1 100 8 = Ret cs
    /\ Z.of_nat (length cs) = 8
    /\ ForallOrdPairs disjoint cs
    /\ (forall n, 1 <= n <= 100 <-> Exists (in_chunk n) cs)
    /\ (forall i, (S i < length cs)%nat ->
          chunk_length (nth i cs (0, 0)) = (100 - 1 + 1) / 8)
    /\ chunk_length (last cs (0, 0)) = (100 - 1 + 1) / 8 + (100 - 1 + 1) mod 8.
Proof.
  apply (chunks_partition_the_range 1 100 8).
  unfold partition_safe, U64, U32. lia.
Defined.

(** X8. A range that ends at the largest [uint64_t] is never counted: the
    last thread is given [end] as the end of its chunk, its loop condition
    [n <= chunk_end] is then true of every [n], and the call does not
    return, whatever the start, the thread count and the order of the
    threads. *)
Theorem count_primes_to_max_never_returns completion start thread_count :
  (forall cs, Permutation cs (completion cs)) ->
  1 <= thread_count < U32 ->
  diverges
    (fun fuel =>
       count_primes_in_order completion fuel start (U64 - 1) thread_count).
Proof.
  intros Hperm Ht fuel. unfold count_primes_in_order, chunks, chunk_size.
  destruct (Z.eqb_spec thread_count 0); [lia|]. cbn [bind].
  set (csize := u64 (U64 - 1 - start + 1) / thread_count).
  set (last_chunk := chunk_of start (U64 - 1) thread_count csize (thread_count - 1)).
  apply run_threads_stuck with last_chunk.
  - eapply Permutation_in; [apply Hperm|].
    unfold chunks_with. apply in_map_iff.
    exists (Z.to_nat (thread_count - 1)). split.
    + unfold last_chunk. f_equal. lia.
    + apply in_seq. lia.
  - unfold worker, last_chunk, chunk_of, chunk_end. cbn [fst snd].
    rewrite (u32_small (thread_count - 1)) by lia.
    rewrite Z.eqb_refl. apply worker_loop_never_ends.
    unfold chunk_start. apply u64_range.
Qed.

Lemma count_primes_to_max_never_returns_witness :
  diverges
    (fun fuel => count_primes_in_order (fun cs => cs) fuel 5 (U64 - 1) 2).
Proof.
  apply (count_primes_to_max_never_returns (fun cs => cs) 5 2).
  - intros cs. apply Permutation_refl.
  - unfold U32. lia.
Defined.

(* ------------------------------------------------------------------ *)
(** ** More on the cache *)

Lemma cache_find_app c1 c2 n :
  cache_find (c1 ++ c2) n
  = match cache_find c1 n with
    | Some v => Some v
    | None => cache_find c2 n
    end.
Proof.
  induction c1 as [|[k v] c1 IH]; [reflexivity|]. cbn.
  destruct (k =? n); [reflexivity|apply IH].
Qed.

Lemma cache_find_tl_none c n :
  cache_find c n = None -> cache_find (tl c) n = None.
Proof.
  destruct c as [|[k v] c]; [auto|]. cbn.
  destruct (k =? n); [discriminate|auto].
Qed.

(** X9. After a call [is_prime_cached(n)] in a reachable store, [n] is in the
    calling thread's cache with the value [is_prime(n)]; a second call
    returns the same value from the cache and leaves the cache as the
    first call left it; the caches of the other threads are what they were
    before both calls. *)
Theorem is_prime_cached_then_hit s t n :
  reachable s ->
  let s1 := snd (is_prime_cached t n s) in
  let s2 := snd (is_prime_cached t n s1) in
  cache_find (s1 t) n = Some (is_prime n)
  /\ fst (is_prime_cached t n s1) = is_prime n
  /\ s2 t = s1 t
  /\ (forall t', t' <> t -> s2 t' = s t').
Proof.
  intros Hs s1 s2.
  assert (Hfound : cache_find (s1 t) n = Some (is_prime n)).
  { unfold s1. rewrite is_prime_cached_snd_same.
    destruct (cache_find (s t) n) as [v|] eqn:E.
    - rewrite (cached_with_hit _ _ _ E), E. f_equal.
      apply cache_find_some in E.
      destruct (reachable_cache_ok s Hs t) as [Hval _].
      rewrite Forall_forall in Hval. exact (Hval _ E).
    - rewrite (cached_with_miss _ _ E), cache_find_app.
      destruct (Z.of_nat (length (s t)) >=? CACHE_SIZE).
      + unfold erase_begin. rewrite (cache_find_tl_none _ _ E). cbn. now rewrite Z.eqb_refl.
      + rewrite E. cbn. now rewrite Z.eqb_refl. }
  split; [assumption|]. split; [|split].
  - rewrite is_prime_cached_fst. unfold is_prime_cached_with.
    now rewrite Hfound.
  - unfold s2. rewrite is_prime_cached_snd_same.
    now apply cached_with_hit with (is_prime n).
  - intros t' Hne. unfold s2, s1.
    now rewrite !is_prime_cached_snd_other.
Qed.

Lemma is_prime_cached_then_hit_witness :
  let s := snd (is_prime_cached 1%nat 9 tls_init) in
  let s1 := snd (is_prime_cached 0%nat 7 s) in
  let s2 := snd (is_prime_cached 0%nat 7 s1) in
  cache_find (s1 0%nat) 7 = Some (is_prime 7)
  /\ fst (is_prime_cached 0%nat 7 s1) = is_prime 7
  /\ s2 0%nat = s1 0%nat
  /\ (forall t', t' <> 0%nat -> s2 t' = s t').
Proof.
  intros s. apply (is_prime_cached_then_hit s 0%nat 7).
  unfold s. apply reachable_call; [apply reachable_init|].
  unfold is_u64, U64. lia.
Defined.

(* ------------------------------------------------------------------ *)
(** ** The generators at and past their end *)

(** X10. The call of [next()] that follows the last Fibonacci value finishes
    the coroutine and returns the value the promise still holds: the last
    value again, or nothing written when no value was asked for.  The
    generator is then done, and a further call resumes a finished
    coroutine: undefined behaviour. *)
Theorem fibonacci_next_past_the_end max_count :
  is_u64 max_count ->
  let count := Z.to_nat max_count in
  exists g,
    fib_take (S count) (fibonacci_sequence max_count)
    = Ret (fib_expected 0 count ++ [last (fib_expected 0 count) None], g)
    /\ fib_done g = true
    /\ fib_next g = Undefined
    /\ fib_values (S (S count)) (fibonacci_sequence max_count) = Undefined.
Proof.
  intros Hm count.
  destruct (fib_take_exhaust max_count Hm) as (g & Hg & Hat).
  fold count in Hg. exists g. split; [assumption|].
  assert (Hnext : fib_next g = Undefined).
  { unfold fib_next, fib_resume. now rewrite Hat. }
  split; [unfold fib_done; now rewrite Hat|]. split; [assumption|].
  unfold fib_values. rewrite fib_take_snoc, Hg. cbn [bind snd fst].
  now rewrite Hnext.
Qed.

Lemma fibonacci_next_past_the_end_witness :
  exists g,
    fib_take (S (Z.to_nat 3)) (fibonacci_sequence 3)
    = Ret (fib_expected 0 (Z.to_nat 3)
             ++ [last (fib_expected 0 (Z.to_nat 3)) None], g)
    /\ fib_done g = true
    /\ fib_next g = Undefined
    /\ fib_values (S (S (Z.to_nat 3))) (fibonacci_sequence 3) = Undefined.
Proof.
  apply (fibonacci_next_past_the_end 3). unfold is_u64, U64. lia.
Defined.

(** X11. [generate_primes] yields 2 before it looks at [max_count]: asked for
    no value or for one, it returns 2 at the first call all the same; the
    second call finds [count < max_count] false, finishes the coroutine and
    returns 2 again; the generator is then done and a third call is
    undefined behaviour. *)
Theorem generate_primes_yields_2_unasked max_count fuel :
  0 <= max_count <= 1 -> (0 < fuel)%nat ->
  exists g,
    gen_take fuel 2 (generate_primes max_count) = Ret ([Some 2; Some 2], g)
    /\ gen_done (generate_primes max_count) = false
    /\ gen_done g = true
    /\ gen_next fuel g = Undefined.
Proof.
  intros Hm Hfuel. destruct fuel as [|fuel]; [lia|].
  exists (mk_gen GenFinal max_count 1 3 (Some 2)).
  split; [|repeat split].
  cbn [gen_take]. rewrite gen_first_next. cbn [bind snd fst].
  unfold gen_next, gen_resume. cbn [gen_at gen_max_count gen_value scan].
  destruct (Z.ltb_spec 1 max_count); [lia|]. reflexivity.
Qed.

Lemma generate_primes_yields_2_unasked_witness :
  exists g,
    gen_take 1 2 (generate_primes 0) = Ret ([Some 2; Some 2], g)
    /\ gen_done (generate_primes 0) = false
    /\ gen_done g = true
    /\ gen_next 1 g = Undefined.
Proof.
  apply (generate_primes_yields_2_unasked 0 1); lia.
Defined.

(** X2. The loop of [is_prime] terminates for every [uint64_t], also where
    its square [i * i] wraps: it leaves at the latest when [i] or [i + 2]
    has reached [n], within [n] iterations, and [is_prime] is the answer
    any sufficient number of iterations gives. *)
Theorem is_prime_terminates n :
  is_u64 n ->
  exists b,
    is_prime_fuel (Z.to_nat n) n = Some b
    /\ (forall fuel, (Z.to_nat n <= fuel)%nat -> is_prime_fuel fuel n = Some b)
    /\ is_prime n = b.
Proof.
  intros Hn. destruct (is_prime_fuel_total n Hn) as [b Hb]. exists b.
  split; [assumption|]. split.
  - intros fuel Hfuel. unfold is_prime_fuel in *.
    destruct (n <=? 1); [assumption|].
    destruct (n <=? 3); [assumption|].
    destruct ((n mod 2 =? 0) || (n mod 3 =? 0)); [assumption|].
    now apply is_prime_loop_mono with (Z.to_nat n).
  - now apply is_prime_fuel_sound with (Z.to_nat n).
Qed.

Lemma is_prime_terminates_witness :
  exists b,
    is_prime_fuel (Z.to_nat 91) 91 = Some b
    /\ (forall fuel, (Z.to_nat 91 <= fuel)%nat -> is_prime_fuel fuel 91 = Some b)
    /\ is_prime 91 = b.
Proof.
  apply (is_prime_terminates 91). unfold is_u64, U64. lia.
Defined.

Lemma gen_take_S fuel k g :
  gen_take fuel (S k) g
  = r <- gen_next fuel g ;; rest <- gen_take fuel k (snd r) ;;
    Ret (fst r :: fst rest, snd rest).
Proof. reflexivity. Qed.

Lemma gen_take_snoc fuel k : forall g,
  gen_take fuel (S k) g
  = r <- gen_take fuel k g ;; r' <- gen_next fuel (snd r) ;;
    Ret (fst r ++ [fst r'], snd r').
Proof.
  induction k as [|k IH]; intros g.
  - cbn. destruct (gen_next fuel g) as [[v g']| |]; reflexivity.
  - rewrite (gen_take_S fuel (S k) g), (gen_take_S fuel k g).
    destruct (gen_next fuel g) as [[v g']| |]; [|reflexivity..].
    cbn [bind snd fst]. rewrite IH.
    destruct (gen_take fuel k g') as [[vs g'']| |]; [|reflexivity..].
    cbn [bind snd fst].
    destruct (gen_next fuel g'') as [[v' g3]| |]; reflexivity.
Qed.

(** X17. When the first [max_count >= 2] primes are below [(2^32 - 1)^2],
    [generate_primes(max_count)] is not done after the [max_count] calls
    of [next()] that return them; one more call finds
    [count < max_count] false, finishes the coroutine and returns the last
    prime again; the generator is then done and a further call is undefined
    behaviour. *)
Theorem generate_primes_done_after_extra_call max_count l :
  first_primes l -> Forall (fun q => q < SQUARE_SAFE) l ->
  Z.of_nat (length l) = max_count -> 2 <= max_count < U64 ->
  exists g g',
    terminates (fun fuel => gen_take fuel (length l) (generate_primes max_count))
               (map Some l, g)
    /\ gen_done g = false
    /\ terminates
         (fun fuel => gen_take fuel (S (length l)) (generate_primes max_count))
         (map Some l ++ [Some (last l 0)], g')
    /\ gen_done g' = true
    /\ (forall fuel, gen_next fuel g' = Undefined).
Proof.
  intros Hl Hsafe Hlen Hm.
  destruct (gen_take_first_primes max_count l) as (g & (fuel0 & Hg) & Hstate);
    [lia|assumption|lia| |].
  { eapply Forall_impl; [|exact Hsafe].
    intros q Hq. unfold SQUARE_SAFE, U64 in *. cbn beta in Hq. lia. }
  assert (Hgeq : g = gen_yielding max_count (Z.of_nat (length l) - 1) (last l 0))
    by (apply Hstate; lia).
  exists g, (mk_gen GenFinal max_count max_count (u64 (last l 0 + 2)) (Some (last l 0))).
  split; [exists fuel0; exact Hg|]. split; [now rewrite Hgeq|].
  split; [|split; [reflexivity|reflexivity]].
  exists (S fuel0). intros fuel Hfuel.
  rewrite gen_take_snoc, Hg by lia. cbn [bind snd fst].
  rewrite Hgeq. unfold gen_next, gen_resume.
  cbn [gen_at gen_yielding gen_max_count gen_count gen_num gen_value].
  replace (Z.of_nat (length l) - 1 + 1) with max_count by lia.
  rewrite (u64_small max_count) by lia.
  destruct fuel as [|fuel]; [lia|]. cbn [scan].
  rewrite Z.ltb_irrefl. reflexivity.
Qed.

Lemma generate_primes_done_after_extra_call_witness :
  exists g g',
    terminates (fun fuel => gen_take fuel (length [2; 3; 5]) (generate_primes 3))
               (map Some [2; 3; 5], g)
    /\ gen_done g = false
    /\ terminates
         (fun fuel => gen_take fuel (S (length [2; 3; 5])) (generate_primes 3))
         (map Some [2; 3; 5] ++ [Some (last [2; 3; 5] 0)], g')
    /\ gen_done g' = true
    /\ (forall fuel, gen_next fuel g' = Undefined).
Proof.
  apply (generate_primes_done_after_extra_call 3 [2; 3; 5]).
  - eexists. split; [reflexivity|].
    apply primes_after_b_sound; [lia|repeat constructor|vm_compute; reflexivity].
  - repeat constructor.
  - reflexivity.
  - unfold U64. lia.
Defined.

(* ------------------------------------------------------------------ *)
(** ** [extended_gcd] and [mod_inverse] *)

Example extended_gcd_120_23 : extended_gcd 10 120 23 = Ret (-9, 47).
Proof. reflexivity. Qed.

Example mod_inverse_3_11 : mod_inverse 10 3 11 = Ret 4.
Proof. reflexivity. Qed.

Lemma as_int_in x : INT_MIN <= x <= INT_MAX -> as_int x = Ret x.
Proof.
  intros Hx. unfold as_int.
  destruct (Z.leb_spec INT_MIN x); [|lia].
  destruct (Z.leb_spec x INT_MAX); [reflexivity|lia].
Qed.

Lemma int_div_nonneg b a :
  0 <= b <= INT_MAX -> 0 < a -> int_div b a = Ret (b / a).
Proof.
  intros Hb Ha. unfold int_div. destruct (Z.eqb_spec a 0); [lia|].
  rewrite Z.quot_div_nonneg by lia. apply as_int_in.
  assert (0 <= b / a <= b).
  { split; [apply Z.div_pos; lia|]. apply Z.div_le_upper_bound; nia. }
  unfold INT_MIN, INT_MAX in *. lia.
Qed.

Lemma int_rem_nonneg b a :
  0 <= b <= INT_MAX -> 0 < a -> int_rem b a = Ret (b mod a).
Proof.
  intros Hb Ha. unfold int_rem. rewrite int_div_nonneg by assumption.
  cbn [bind]. now rewrite Z.rem_mod_nonneg by lia.
Qed.

Lemma extended_gcd_mono fuel : forall fuel' a b r,
  (fuel <= fuel')%nat -> extended_gcd fuel a b = Ret r ->
  extended_gcd fuel' a b = Ret r.
Proof.
  induction fuel as [|fuel IH]; intros fuel' a b r Hle H; [discriminate|].
  destruct fuel' as [|fuel']; [lia|]. cbn [extended_gcd] in *.
  destruct (a =? 0); [assumption|].
  destruct (int_rem b a) as [m| |]; try discriminate. cbn [bind] in *.
  destruct (extended_gcd fuel m a) as [xy| |] eqn:E; try discriminate.
  rewrite (IH fuel' m a xy) by (assumption || lia). assumption.
Qed.

Lemma extended_gcd_runs fuel : forall a b,
  0 <= a <= INT_MAX -> 0 <= b <= INT_MAX -> a < Z.of_nat fuel ->
  exists x y, extended_gcd fuel a b = Ret (x, y) /\ bezout_pair a b x y.
Proof.
  assert (HM : INT_MAX = 2147483647) by reflexivity.
  assert (Hm : INT_MIN = -2147483648) by reflexivity.
  induction fuel as [|fuel IH]; intros a b Ha Hb Hfuel; [lia|].
  cbn [extended_gcd]. destruct (Z.eqb_spec a 0) as [->|Hne].
  - exists 0, 1. split; [reflexivity|]. unfold bezout_pair.
    rewrite Z.gcd_0_l, Z.abs_eq by lia. repeat split; lia.
  - rewrite int_rem_nonneg by lia. cbn [bind].
    pose proof (Z.mod_pos_bound b a ltac:(lia)) as Hr.
    destruct (IH (b mod a) a) as (x' & y' & Hrun & Hbez & Hx' & Hy' & Hzero);
      [lia..|].
    rewrite Hrun. cbn [bind fst snd].
    rewrite int_div_nonneg by lia. cbn [bind].
    pose proof (Z.div_mod b a ltac:(lia)) as Hdm.
    assert (Hq : 0 <= b / a) by (apply Z.div_pos; lia).
    assert (Hprod : Z.abs (b / a * x') <= b - b mod a
                    /\ (b mod a = 0 -> b / a * x' = 0)).
    { destruct (Z.eq_dec (b mod a) 0) as [E|E].
      - destruct (Hzero E) as [-> _]. rewrite Z.mul_0_r. cbn. lia.
      - split; [|contradiction]. rewrite Z.abs_mul, (Z.abs_eq (b / a)) by lia.
        nia. }
    destruct Hprod as [Hprod Hprod0].
    unfold int_mul. rewrite as_int_in by lia. cbn [bind].
    assert (Hsub : Z.abs (y' - b / a * x') <= Z.max 1 b).
    { destruct (Z.eq_dec (b mod a) 0) as [E|E].
      - destruct (Hzero E) as [_ ->]. rewrite (Hprod0 E). cbn. lia.
      - lia. }
    unfold int_sub. rewrite as_int_in by lia. cbn [bind].
    exists (y' - b / a * x'), x'. split; [reflexivity|].
    unfold bezout_pair. split; [|split; [assumption|split; [lia|lia]]].
    rewrite Z.gcd_mod in Hbez by lia. rewrite <- Hbez. nia.
Qed.

Lemma extended_gcd_terminates a b :
  0 <= a <= INT_MAX -> 0 <= b <= INT_MAX ->
  exists x y,
    terminates (fun fuel => extended_gcd fuel a b) (x, y)
    /\ bezout_pair a b x y.
Proof.
  intros Ha Hb.
  destruct (extended_gcd_runs (S (Z.to_nat a)) a b Ha Hb) as (x & y & Hrun & Hbez);
    [lia|].
  exists x, y. split; [|exact Hbez].
  exists (S (Z.to_nat a)). intros fuel Hfuel.
  now apply extended_gcd_mono with (S (Z.to_nat a)).
Qed.

(** X14. For [a] and [b] from 0 to [INT_MAX], [extended_gcd(a, b)] terminates
    without overflow with coefficients [(x, y)] of a Bezout identity,
    [x * a + y * b = gcd(a, b)], of absolute values at most [max(1, b)] and
    [max(1, a)]; [extended_gcd(0, b)] is [(0, 1)]. *)
Theorem extended_gcd_bezout a b :
  0 <= a <= INT_MAX -> 0 <= b <= INT_MAX ->
  exists x y,
    terminates (fun fuel => extended_gcd fuel a b) (x, y)
    /\ x * a + y * b = Z.gcd a b
    /\ Z.abs x <= Z.max 1 b /\ Z.abs y <= Z.max 1 a
    /\ (a = 0 -> x = 0 /\ y = 1).
Proof.
  intros Ha Hb.
  destruct (extended_gcd_terminates a b Ha Hb) as (x & y & Hrun & Hbez).
  exists x, y. split; [assumption|exact Hbez].
Qed.

Lemma extended_gcd_bezout_witness :
  exists x y,
    terminates (fun fuel => extended_gcd fuel 120 23) (x, y)
    /\ x * 120 + y * 23 = Z.gcd 120 23
    /\ Z.abs x <= Z.max 1 23 /\ Z.abs y <= Z.max 1 120
    /\ (120 = 0 -> x = 0 /\ y = 1).
Proof.
  apply (extended_gcd_bezout 120 23); unfold INT_MAX; lia.
Defined.

Lemma quot_rem_positive_divisor x m :
  0 < m ->
  Z.min 0 x <= Z.quot x m <= Z.max 0 x /\ - m < Z.rem x m < m
  /\ (Z.rem x m + m) mod m = x mod m.
Proof.
  intros Hm. pose proof (Z.quot_rem' x m) as Hqr.
  assert (Hrem : - m < Z.rem x m < m /\ Z.min 0 x <= Z.quot x m <= Z.max 0 x).
  { destruct (Z_le_gt_dec 0 x) as [Hx|Hx].
    - pose proof (Z.rem_bound_pos x m Hx Hm).
      assert (0 <= Z.quot x m) by (apply Z.quot_pos; lia).
      split; [lia|]. nia.
    - pose proof (Z.rem_bound_pos (- x) m ltac:(lia) Hm) as Hb.
      pose proof (Z.quot_pos (- x) m ltac:(lia) Hm) as Hq.
      rewrite Z.rem_opp_l, Z.quot_opp_l in * by lia.
      split; [lia|]. nia. }
  destruct Hrem as [Hrem Hquot]. split; [assumption|]. split; [assumption|].
  replace (Z.rem x m + m) with (x + (1 - Z.quot x m) * m) by lia.
  apply Z_mod_plus_full.
Qed.

Lemma int_rem_positive_divisor x m :
  INT_MIN <= x <= INT_MAX -> 0 < m -> int_rem x m = Ret (Z.rem x m).
Proof.
  intros Hx Hm. unfold int_rem, int_div.
  destruct (Z.eqb_spec m 0); [lia|].
  destruct (quot_rem_positive_divisor x m Hm) as (Hq & _).
  rewrite as_int_in; [reflexivity|]. unfold INT_MIN, INT_MAX in *.
  set (q := Z.quot x m) in *. clearbody q. lia.
Qed.

(** X15. For [a] from 0 to [INT_MAX] and a modulus [m] from 2 to 2^30 coprime
    to [a], [mod_inverse(a, m)] terminates without overflow with the
    inverse of [a] modulo [m]: the [r] in [0, m) with [a * r mod m = 1].
    With a modulus of 0 the reduction [x % m] divides by zero: undefined
    behaviour. *)
Theorem mod_inverse_inverts a m :
  0 <= a <= INT_MAX -> 1 < m <= 2 ^ 30 -> Z.gcd a m = 1 ->
  (exists r,
     terminates (fun fuel => mod_inverse fuel a m) r
     /\ 0 <= r < m /\ (a * r) mod m = 1)
  /\ (exists fuel0, forall fuel, (fuel0 <= fuel)%nat ->
        mod_inverse fuel a 0 = Undefined).
Proof.
  intros Ha Hm Hgcd.
  assert (HM : INT_MAX = 2147483647) by reflexivity.
  assert (Hmin : INT_MIN = -2147483648) by reflexivity.
  assert (H30 : 2 ^ 30 = 1073741824) by reflexivity.
  split.
  - destruct (extended_gcd_terminates a m) as (x & y & (fuel0 & Hrun) & Hbez & Hx & _);
      [lia..|].
    exists (x mod m). split; [|split].
    + exists fuel0. intros fuel Hfuel. unfold mod_inverse.
      rewrite (Hrun fuel Hfuel). cbn [bind fst].
      destruct (quot_rem_positive_divisor x m) as (_ & Hrem & Hmod); [lia|].
      rewrite int_rem_positive_divisor by lia. cbn [bind].
      unfold int_add. rewrite as_int_in by lia. cbn [bind].
      rewrite int_rem_positive_divisor by lia.
      rewrite Z.rem_mod_nonneg by lia. now rewrite Hmod.
    + apply Z.mod_pos_bound. lia.
    + rewrite Z.mul_mod_idemp_r by lia.
      replace (a * x) with (1 + (- y) * m) by (rewrite Hgcd in Hbez; lia).
      rewrite Z_mod_plus_full. apply Z.mod_1_l. lia.
  - destruct (extended_gcd_terminates a 0) as (x & y & (fuel0 & Hrun) & _); [lia..|].
    exists fuel0. intros fuel Hfuel. unfold mod_inverse.
    rewrite (Hrun fuel Hfuel). reflexivity.
Qed.

Lemma mod_inverse_inverts_witness :
  (exists r,
     terminates (fun fuel => mod_inverse fuel 3 11) r
     /\ 0 <= r < 11 /\ (3 * r) mod 11 = 1)
  /\ (exists fuel0, forall fuel, (fuel0 <= fuel)%nat ->
        mod_inverse fuel 3 0 = Undefined).
Proof.
  apply (mod_inverse_inverts 3 11); [unfold INT_MAX; lia|lia|reflexivity].
Defined.

(* ------------------------------------------------------------------ *)
(** ** The sieve, the generator and the counter agree *)

Lemma sorted_lt_unique l1 : forall l2,
  StronglySorted Z.lt l1 -> StronglySorted Z.lt l2 ->
  (forall x, In x l1 <-> In x l2) -> l1 = l2.
Proof.
  induction l1 as [|a l1 IH]; intros [|b l2] H1 H2 Hmem.
  - reflexivity.
  - exfalso. apply (Hmem b). now left.
  - exfalso. apply (Hmem a). now left.
  - inversion H1 as [|? ? Hs1 Ha]; subst. inversion H2 as [|? ? Hs2 Hb]; subst.
    rewrite Forall_forall in Ha, Hb.
    assert (a = b).
    { destruct (proj1 (Hmem a) (or_introl eq_refl)) as [E|Hin]; [now symmetry|].
      destruct (proj2 (Hmem b) (or_introl eq_refl)) as [E|Hin']; [assumption|].
      specialize (Ha b Hin'). specialize (Hb a Hin). lia. }
    subst b. f_equal. apply IH; try assumption.
    intros x. split; intros Hx.
    + destruct (proj1 (Hmem x) (or_intror Hx)) as [E|Hin]; [|assumption].
      specialize (Ha x Hx). lia.
    + destruct (proj2 (Hmem x) (or_intror Hx)) as [E|Hin]; [|assumption].
      specialize (Hb x Hx). lia.
Qed.

Lemma StronglySorted_filter_lt f l :
  StronglySorted Z.lt l -> StronglySorted Z.lt (filter f l).
Proof.
  induction 1 as [|a l Hs IH Ha]; [constructor|]. cbn [filter].
  destruct (f a); [|assumption]. constructor; [assumption|].
  rewrite Forall_forall in *. intros x Hx. apply filter_In in Hx as [Hx _].
  now apply Ha.
Qed.

Lemma StronglySorted_Zrange a n : StronglySorted Z.lt (Zrange a n).
Proof.
  revert a. induction n as [|n IH]; intros a; [constructor|].
  unfold Zrange. cbn [seq map]. rewrite <- seq_shift, map_map.
  constructor.
  - replace (map (fun i => a + Z.of_nat (S i)) (seq 0 n)) with (Zrange (a + 1) n);
      [apply IH|].
    unfold Zrange. apply map_ext. intros i. lia.
  - apply Forall_forall. intros x Hx. apply in_map_iff in Hx as (i & <- & _). lia.
Qed.

(** A strictly ascending list of all the primes in [(p, limit]] is the
    chain of the primes after [p]. *)
Lemma sorted_primes_after limit l : forall p,
  StronglySorted Z.lt l ->
  (forall x, In x l <-> (prime x /\ p < x <= limit)) ->
  primes_after p l.
Proof.
  induction l as [|q l IH]; intros p Hs Hmem; [constructor|].
  inversion Hs as [|? ? Hs' Hq]; subst. rewrite Forall_forall in Hq.
  destruct (proj1 (Hmem q) (or_introl eq_refl)) as [Hprime Hrange].
  constructor; [lia|assumption| |].
  - intros x Hx Hp.
    destruct (proj2 (Hmem x)) as [E|Hin]; [split; [assumption|lia]|lia|].
    specialize (Hq x Hin). lia.
  - apply IH; [assumption|]. intros x. split.
    + intros Hx. specialize (Hq x Hx).
      destruct (proj1 (Hmem x) (or_intror Hx)) as [Hp Hr]. split; [assumption|lia].
    + intros [Hp Hr].
      destruct (proj2 (Hmem x)) as [E|Hin]; [split; [assumption|lia]|lia|assumption].
Qed.

Lemma primes_upto_first limit l :
  2 <= limit -> StronglySorted Z.lt l ->
  (forall x, In x l <-> (prime x /\ x <= limit)) ->
  first_primes l.
Proof.
  intros Hlimit Hs Hmem.
  assert (Hchain : primes_after 1 l).
  { apply sorted_primes_after with limit; [assumption|].
    intros x. rewrite Hmem. split; intros [Hp Hr]; (split; [assumption|]).
    - apply prime_alt in Hp as [Hp _]. lia.
    - lia. }
  inversion Hchain as [|? q l' H1q Hq Hgap Hrest]; subst.
  - exfalso. apply (Hmem 2). split; [apply prime_two|lia].
  - assert (q = 2).
    { destruct (Z.eq_dec q 2); [assumption|]. exfalso.
      apply (Hgap 2); [|apply prime_two].
      apply prime_alt in Hq as [Hq _]. lia. }
    subst q. exists l'. now split.
Qed.

(** X16. For every [limit] from 2 below 65535^2, the list [simd_sieve(limit)]
    returns is the list of the [n] in [1, limit] that [is_prime] accepts;
    the first calls of [next()] on [generate_primes(max_count)], as many as
    the list is long, return its elements in order when [max_count] allows
    that many; and [count_primes(1, limit, thread_count)] returns its
    length, for every thread count and thread order. *)
Theorem sieve_generator_counter_agree completion limit max_count thread_count :
  2 <= limit < SIEVE_SAFE ->
  (forall cs, Permutation cs (completion cs)) ->
  1 <= thread_count < U32 ->
  exists l,
    terminates (fun fuel => simd_sieve fuel limit) l
    /\ l = filter is_prime (Zrange 1 (Z.to_nat limit))
    /\ (Z.of_nat (length l) <= max_count < U64 ->
        terminates
          (fun fuel => gen_values fuel (length l) (generate_primes max_count))
          (map Some l))
    /\ terminates
         (fun fuel => count_primes_in_order completion fuel 1 limit thread_count)
         (Z.of_nat (length l)).
Proof.
  intros Hlimit Hperm Ht.
  assert (HS : SIEVE_SAFE = 4294836225) by reflexivity.
  assert (HW : WHEEL_SAFE = 18446744030759878681) by reflexivity.
  assert (HQ : SQUARE_SAFE = 18446744065119617025) by reflexivity.
  assert (HU : U64 = 18446744073709551616) by reflexivity.
  destruct (simd_sieve_run limit Hlimit) as (l & Hrun & Hsorted & Hmem).
  assert (Hfilter : l = filter is_prime (Zrange 1 (Z.to_nat limit))).
  { apply sorted_lt_unique; [assumption| |].
    - apply StronglySorted_filter_lt, StronglySorted_Zrange.
    - intros x. rewrite Hmem, filter_In. split.
      + intros [Hp Hle]. apply prime_alt in Hp as Hp'. destruct Hp' as [H1 _].
        split; [apply Zrange_In; lia|]. apply is_prime_iff_prime; [lia|assumption].
      + intros [Hin Hp]. apply Zrange_bounds in Hin.
        split; [|lia]. apply is_prime_iff_prime; [lia|assumption]. }
  exists l. split; [|split; [assumption|split]].
  - exists (Z.to_nat (2 * limit + 4)). intros fuel Hfuel.
    now apply simd_sieve_mono with (Z.to_nat (2 * limit + 4)).
  - intros Hcount.
    destruct (gen_take_first_primes max_count l) as (g & (fuel0 & Hg) & _);
      [lia|now apply primes_upto_first with limit|lia| |].
    + apply Forall_forall. intros x Hx. apply Hmem in Hx. lia.
    + exists fuel0. intros fuel Hfuel. unfold gen_values.
      now rewrite (Hg fuel Hfuel).
  - rewrite Hfilter at 1. rewrite <- prime_count_filter.
    replace (Z.to_nat limit) with (Z.to_nat (limit - 1 + 1)) by lia.
    apply count_primes_counts; [assumption| |lia].
    unfold partition_safe, U32 in *. lia.
Qed.

Lemma sieve_generator_counter_agree_witness :
  exists l,
    terminates (fun fuel => simd_sieve fuel 30) l
    /\ l = filter is_prime (Zrange 1 (Z.to_nat 30))
    /\ (Z.of_nat (length l) <= 10 < U64 ->
        terminates
          (fun fuel => gen_values fuel (length l) (generate_primes 10))
          (map Some l))
    /\ terminates
         (fun fuel => count_primes_in_order (fun cs => cs) fuel 1 30 4)
         (Z.of_nat (length l)).
Proof.
  apply (sieve_generator_counter_agree (fun cs => cs) 30 10 4).
  - unfold SIEVE_SAFE. lia.
  - intros cs. apply Permutation_refl.
  - unfold U32. lia.
Defined.
